(** * The data logger task of the control firmware ([Tasks/Src/logger.c])

    A shallow embedding of [logger_thread_entry]: the search for an unused
    log file at start-up, and the endless sampling loop that frames sensor
    readings into the shared scratch buffer [buf] and hands them to
    [logger_output].

    Conventions.
    - A byte is a [Z] in [0, 256); [uint32_t] values are [Z]s reduced modulo
      [2^32] where the C code converts or subtracts.
    - [buf] is a [list Z] of length 128.  A store or [memcpy] outside of it
      is undefined behaviour in C; the embedding reports it as [None].
    - Macros of [config.h] and of the drivers' headers ([LDPS_N], [WHEEL_N],
      [TX_TIMER_TICKS_PER_SECOND], the [*_ENABLE] and [LOGGER_*] switches)
      and the byte order of the target are fields of a [build] record.
    - Everything the loop reads from outside (the tick counter, the drivers'
      structures) is supplied per iteration in a [reads] record. *)

From Stdlib Require Import ZArith Lia List String Ascii Sorted.
From Stdlib Require Import Decimal DecimalN DecimalString.
From stdpp Require Import base option list gmap strings.

Local Open Scope Z_scope.

(** ** Machine integers and object representations *)

Module Mach.

Definition u8 (v : Z) : Z := v mod 2 ^ 8.
Definition u32 (v : Z) : Z := v mod 2 ^ 32.

Inductive byte_order := LittleEndian | BigEndian.

(** The [n] low-order bytes of [v], least significant first. *)
Fixpoint le_bytes (n : nat) (v : Z) : list Z :=
  match n with
  | O => []
  | S n' => v mod 256 :: le_bytes n' (v / 256)
  end.

(** The object representation of an [n]-byte integer: what [memcpy] reads
    from its address. *)
Definition object_bytes (o : byte_order) (n : nat) (v : Z) : list Z :=
  match o with
  | LittleEndian => le_bytes n v
  | BigEndian => rev (le_bytes n v)
  end.

(** Reading an integer back from its bytes. *)
Fixpoint le_value (bs : list Z) : Z :=
  match bs with
  | [] => 0
  | b :: bs' => b + 256 * le_value bs'
  end.

Definition object_value (o : byte_order) (bs : list Z) : Z :=
  match o with
  | LittleEndian => le_value bs
  | BigEndian => le_value (rev bs)
  end.

End Mach.
Import Mach.

(** ** The scratch buffer *)

Module Buf.

(** [buf[i] = b]: defined only inside the array. *)
Definition store (buf : list Z) (i : nat) (b : Z) : option (list Z) :=
  if decide (i < length buf)%nat then Some (<[i := b]> buf) else None.

(** [memcpy(buf + off, src, length src)]: defined only if the destination
    range lies inside the array. *)
Definition memcpy (buf : list Z) (off : nat) (src : list Z) : option (list Z) :=
  if decide (off + length src <= length buf)%nat
  then Some (take off buf ++ src ++ drop (off + length src) buf)
  else None.

(** The first [len] bytes of [buf], as the sinks read them. *)
Definition read (buf : list Z) (len : nat) : option (list Z) :=
  if decide (len <= length buf)%nat then Some (take len buf) else None.

End Buf.
Import Buf.

(** ** Build configuration, inputs and static state *)

(** The macros the translation unit takes from [config.h], the drivers'
    headers and ThreadX, together with the byte order of the target (the
    code copies object representations with [memcpy] and never normalises
    them).  [TX_TIMER_TICKS_PER_SECOND] is an [unsigned long] constant. *)
Record build := {
  LDPS_ENABLE : bool;
  IMU_ENABLE : bool;
  WHEEL_ENABLE : bool;
  LOGGER_SD : bool;
  LOGGER_USB_SERIAL : bool;
  LDPS_N : nat;
  WHEEL_N : nat;
  TX_TIMER_TICKS_PER_SECOND : Z;
  target_order : byte_order
}.

(** [imu.acc_raw] and [imu.gyro_raw]: three [int16_t] axes. *)
Record axes := { axis_x : Z; axis_y : Z; axis_z : Z }.

(** What one pass through the loop body reads from outside.  The drivers'
    structures are written by other threads, and the loop reads each
    [timestamp] field twice: once in the test (lines 130, 142) and once
    more, after the frame has gone out, to remember it (lines 139, 151).
    [imu.h] is not part of the sources; the [timestamp] fields are taken to
    be 32-bit unsigned, like the statics they are compared with, and the
    raw axes to be [int16_t], as the header comment of [logger.c] says. *)
Record reads := {
  tx_time_get : Z;
  ldps_read : nat -> Z;
  imu_acc_timestamp : Z;
  imu_acc_raw : axes;
  imu_acc_timestamp_after : Z;
  imu_gyro_timestamp : Z;
  imu_gyro_raw : axes;
  imu_gyro_timestamp_after : Z;
  wheel_rpm : nat -> Z
}.

(** The function's [static] variables. *)
Record statics := {
  buf : list Z;
  last_ldps_timestamp : Z;
  last_acc_timestamp : Z;
  last_gyro_timestamp : Z;
  last_wheel_timestamp : Z;
  last_sd_timestamp : Z
}.

Definition set_buf (s : statics) (b : list Z) : statics :=
  {| buf := b;
     last_ldps_timestamp := last_ldps_timestamp s;
     last_acc_timestamp := last_acc_timestamp s;
     last_gyro_timestamp := last_gyro_timestamp s;
     last_wheel_timestamp := last_wheel_timestamp s;
     last_sd_timestamp := last_sd_timestamp s |}.

Definition set_last_ldps (s : statics) (t : Z) : statics :=
  {| buf := buf s;
     last_ldps_timestamp := t;
     last_acc_timestamp := last_acc_timestamp s;
     last_gyro_timestamp := last_gyro_timestamp s;
     last_wheel_timestamp := last_wheel_timestamp s;
     last_sd_timestamp := last_sd_timestamp s |}.

Definition set_last_acc (s : statics) (t : Z) : statics :=
  {| buf := buf s;
     last_ldps_timestamp := last_ldps_timestamp s;
     last_acc_timestamp := t;
     last_gyro_timestamp := last_gyro_timestamp s;
     last_wheel_timestamp := last_wheel_timestamp s;
     last_sd_timestamp := last_sd_timestamp s |}.

Definition set_last_gyro (s : statics) (t : Z) : statics :=
  {| buf := buf s;
     last_ldps_timestamp := last_ldps_timestamp s;
     last_acc_timestamp := last_acc_timestamp s;
     last_gyro_timestamp := t;
     last_wheel_timestamp := last_wheel_timestamp s;
     last_sd_timestamp := last_sd_timestamp s |}.

Definition set_last_wheel (s : statics) (t : Z) : statics :=
  {| buf := buf s;
     last_ldps_timestamp := last_ldps_timestamp s;
     last_acc_timestamp := last_acc_timestamp s;
     last_gyro_timestamp := last_gyro_timestamp s;
     last_wheel_timestamp := t;
     last_sd_timestamp := last_sd_timestamp s |}.

Definition set_last_sd (s : statics) (t : Z) : statics :=
  {| buf := buf s;
     last_ldps_timestamp := last_ldps_timestamp s;
     last_acc_timestamp := last_acc_timestamp s;
     last_gyro_timestamp := last_gyro_timestamp s;
     last_wheel_timestamp := last_wheel_timestamp s;
     last_sd_timestamp := t |}.

(** Zero-initialised statics, as at program start. *)
Definition statics_init : statics :=
  {| buf := replicate 128 0;
     last_ldps_timestamp := 0;
     last_acc_timestamp := 0;
     last_gyro_timestamp := 0;
     last_wheel_timestamp := 0;
     last_sd_timestamp := 0 |}.

(** ** Calls the loop makes *)

(** What the loop body does to the outside, in order: a call
    [logger_output(buf, len)], recorded with the [len] bytes it passes, or
    a call [fx_media_flush(&sdio_disk)]. *)
Inductive call :=
| Output (frame : list Z)
| Flush.

(** What the sinks see: the calls [logger_output] makes with a frame
    (lines 65-73), and the flush of the medium. *)
Inductive sink_action :=
| fx_file_write (bytes : list Z)
| CDC_Transmit_FS (bytes : list Z)
| SEGGER_RTT_printf (sensor_id : Z)
| fx_media_flush.

Definition logger_output (cfg : build) (frame : list Z) : list sink_action :=
  (if LOGGER_SD cfg then [fx_file_write frame] else [])
  ++ (if LOGGER_USB_SERIAL cfg then [CDC_Transmit_FS frame] else [])
  ++ [SEGGER_RTT_printf (nth 4 frame 0)].

(** What reaches the sinks over a sequence of calls. *)
Definition sink_trace (cfg : build) (cs : list call) : list sink_action :=
  flat_map (fun c => match c with
                     | Output frame => logger_output cfg frame
                     | Flush => [fx_media_flush]
                     end) cs.

(** The byte strings written to the log file. *)
Fixpoint file_writes (acts : list sink_action) : list (list Z) :=
  match acts with
  | [] => []
  | fx_file_write bytes :: acts' => bytes :: file_writes acts'
  | _ :: acts' => file_writes acts'
  end.

(** A block of the loop body: it may update the statics and make calls. *)
Definition block : Type := statics -> option (statics * list call).

Definition skip : block := fun s => Some (s, []).

Definition and_then (b1 b2 : block) : block := fun s =>
  '(s1, c1) ← b1 s;
  '(s2, c2) ← b2 s1;
  Some (s2, c1 ++ c2).

Infix ";;;" := and_then (at level 65, right associativity).

(** ** The loop body (lines 104-175) *)

(** [for (i = 0; i < count; i++) memcpy(buf + base + i * width, &val(i), width)],
    the shape of the loops of lines 115-118 and 159-160; [i] is the current
    index and [count] the number of rounds left. *)
Fixpoint for_memcpy (o : byte_order) (width base : nat) (val : nat -> Z)
    (count i : nat) (b : list Z) : option (list Z) :=
  match count with
  | O => Some b
  | S count' =>
      b' ← memcpy b (base + i * width) (object_bytes o width (val i));
      for_memcpy o width base val count' (S i) b'
  end.

(** Lines 110-124.  [int16_t v = ldps_read(...)] keeps the low 16 bits,
    which are the two bytes [object_bytes _ 2] produces. *)
Definition ldps_block (cfg : build) (r : reads) (timestamp : Z) : block := fun s =>
  if LDPS_ENABLE cfg
     && bool_decide (u32 (TX_TIMER_TICKS_PER_SECOND cfg) / 1000
                     < u32 (timestamp - last_ldps_timestamp s))
  then
    b ← store (buf s) 4 0x01;
    b ← store b 5 (u8 (Z.of_nat (LDPS_N cfg * 2)));
    b ← for_memcpy (target_order cfg) 2 6 (ldps_read r) (LDPS_N cfg) 0 b;
    b ← store b (6 + LDPS_N cfg * 2) 0x0D;
    b ← store b (7 + LDPS_N cfg * 2) 0x0A;
    frame ← read b (8 + LDPS_N cfg * 2);
    Some (set_last_ldps (set_buf s b) timestamp, [Output frame])
  else Some (s, []).

(** Lines 130-140 and 142-152 differ in the sensor id, the raw vector and
    the static they test and set. *)
Definition imu_frame_writes (cfg : build) (id : Z) (raw : axes) (b : list Z)
    : option (list Z * list Z) :=
  b ← store b 4 id;
  b ← store b 5 0x06;
  b ← memcpy b 6 (object_bytes (target_order cfg) 2 (axis_x raw));
  b ← memcpy b 8 (object_bytes (target_order cfg) 2 (axis_y raw));
  b ← memcpy b 10 (object_bytes (target_order cfg) 2 (axis_z raw));
  b ← store b 12 0x0D;
  b ← store b 13 0x0A;
  frame ← read b 14;
  Some (b, frame).

Definition acc_block (cfg : build) (r : reads) : block := fun s =>
  if IMU_ENABLE cfg
     && negb (bool_decide (u32 (imu_acc_timestamp r) = last_acc_timestamp s))
  then
    '(b, frame) ← imu_frame_writes cfg 0x02 (imu_acc_raw r) (buf s);
    Some (set_last_acc (set_buf s b) (u32 (imu_acc_timestamp_after r)),
          [Output frame])
  else Some (s, []).

Definition gyro_block (cfg : build) (r : reads) : block := fun s =>
  if IMU_ENABLE cfg
     && negb (bool_decide (u32 (imu_gyro_timestamp r) = last_gyro_timestamp s))
  then
    '(b, frame) ← imu_frame_writes cfg 0x03 (imu_gyro_raw r) (buf s);
    Some (set_last_gyro (set_buf s b) (u32 (imu_gyro_timestamp_after r)),
          [Output frame])
  else Some (s, []).

(** Lines 156-165.  A [float] is carried as its 32-bit pattern. *)
Definition wheel_block (cfg : build) (r : reads) (timestamp : Z) : block := fun s =>
  if WHEEL_ENABLE cfg
     && bool_decide (u32 (TX_TIMER_TICKS_PER_SECOND cfg) / 1000
                     < u32 (timestamp - last_wheel_timestamp s))
  then
    b ← store (buf s) 4 0x04;
    b ← for_memcpy (target_order cfg) 4 5 (wheel_rpm r) (WHEEL_N cfg) 0 b;
    b ← store b (WHEEL_N cfg * 4 + 5) 0x0D;
    b ← store b (WHEEL_N cfg * 4 + 6) 0x0A;
    frame ← read b (WHEEL_N cfg * 4 + 7);
    Some (set_last_wheel (set_buf s b) timestamp, [Output frame])
  else Some (s, []).

(** Lines 168-174. *)
Definition sd_block (cfg : build) (timestamp : Z) : block := fun s =>
  if LOGGER_SD cfg
     && bool_decide (u32 (TX_TIMER_TICKS_PER_SECOND cfg)
                     < u32 (timestamp - last_sd_timestamp s))
  then Some (set_last_sd s timestamp, [Flush])
  else Some (s, []).

(** Lines 106-107. *)
Definition stamp_block (cfg : build) (timestamp : Z) : block := fun s =>
  b ← memcpy (buf s) 0 (object_bytes (target_order cfg) 4 timestamp);
  Some (set_buf s b, []).

(** One pass through the body of the [while (1)] of line 104. *)
Definition logger_iteration (cfg : build) (r : reads) : block :=
  let timestamp := u32 (tx_time_get r) in
  stamp_block cfg timestamp ;;;
  ldps_block cfg r timestamp ;;;
  acc_block cfg r ;;;
  gyro_block cfg r ;;;
  wheel_block cfg r timestamp ;;;
  sd_block cfg timestamp.

(** The loop run for as many passes as there are inputs; the calls are
    kept per pass. *)
Fixpoint logger_loop (cfg : build) (rs : list reads) (s : statics)
    : option (statics * list (list call)) :=
  match rs with
  | [] => Some (s, [])
  | r :: rs' =>
      '(s1, c) ← logger_iteration cfg r s;
      '(s2, cs) ← logger_loop cfg rs' s1;
      Some (s2, c :: cs)
  end.

(** ** The frame layouts of the file format

    The header comment of [logger.c] gives the format as
    [[timestamp][sensor_id][data_length][data][EOL]].  The definitions below
    write the frames down as byte lists; [Layout.iteration_outcome] is the
    loop body told in terms of them, and [logger_iteration_outcome] shows
    that the code computes exactly that. *)

Module Layout.

(** The elements [i], [i+1], ... of an array of [width]-byte objects. *)
Fixpoint array_bytes (o : byte_order) (width : nat) (val : nat -> Z)
    (count i : nat) : list Z :=
  match count with
  | O => []
  | S count' => object_bytes o width (val i) ++ array_bytes o width val count' (S i)
  end.

Definition EOL : list Z := [0x0D; 0x0A].

Definition header (cfg : build) (timestamp : Z) : list Z :=
  object_bytes (target_order cfg) 4 timestamp.

(** A frame that declares its payload length, and one that does not. *)
Definition frame_with_length (hdr : list Z) (id : Z) (payload : list Z) : list Z :=
  hdr ++ [id; Z.of_nat (length payload)] ++ payload ++ EOL.

Definition frame_fixed (hdr : list Z) (id : Z) (payload : list Z) : list Z :=
  hdr ++ [id] ++ payload ++ EOL.

Definition ldps_payload (cfg : build) (r : reads) : list Z :=
  array_bytes (target_order cfg) 2 (ldps_read r) (LDPS_N cfg) 0.

Definition axes_payload (cfg : build) (raw : axes) : list Z :=
  object_bytes (target_order cfg) 2 (axis_x raw)
  ++ object_bytes (target_order cfg) 2 (axis_y raw)
  ++ object_bytes (target_order cfg) 2 (axis_z raw).

Definition wheel_payload (cfg : build) (r : reads) : list Z :=
  array_bytes (target_order cfg) 4 (wheel_rpm r) (WHEEL_N cfg) 0.

Definition ldps_frame (cfg : build) (r : reads) (timestamp : Z) : list Z :=
  frame_with_length (header cfg timestamp) 0x01 (ldps_payload cfg r).

Definition acc_frame (cfg : build) (r : reads) (timestamp : Z) : list Z :=
  frame_with_length (header cfg timestamp) 0x02 (axes_payload cfg (imu_acc_raw r)).

Definition gyro_frame (cfg : build) (r : reads) (timestamp : Z) : list Z :=
  frame_with_length (header cfg timestamp) 0x03 (axes_payload cfg (imu_gyro_raw r)).

Definition wheel_frame (cfg : build) (r : reads) (timestamp : Z) : list Z :=
  frame_fixed (header cfg timestamp) 0x04 (wheel_payload cfg r).

(** The gates, as tests on the statics. *)
Definition tick_gate (threshold timestamp last : Z) : bool :=
  bool_decide (threshold < u32 (timestamp - last)).

Definition edge_gate (upstream last : Z) : bool :=
  negb (bool_decide (u32 upstream = last)).

Definition threshold (cfg : build) : Z :=
  u32 (TX_TIMER_TICKS_PER_SECOND cfg) / 1000.

Definition flush_interval (cfg : build) : Z :=
  u32 (TX_TIMER_TICKS_PER_SECOND cfg).

Definition ldps_due (cfg : build) (timestamp : Z) (s : statics) : bool :=
  LDPS_ENABLE cfg && tick_gate (threshold cfg) timestamp (last_ldps_timestamp s).

Definition acc_due (cfg : build) (r : reads) (s : statics) : bool :=
  IMU_ENABLE cfg && edge_gate (imu_acc_timestamp r) (last_acc_timestamp s).

Definition gyro_due (cfg : build) (r : reads) (s : statics) : bool :=
  IMU_ENABLE cfg && edge_gate (imu_gyro_timestamp r) (last_gyro_timestamp s).

Definition wheel_due (cfg : build) (timestamp : Z) (s : statics) : bool :=
  WHEEL_ENABLE cfg && tick_gate (threshold cfg) timestamp (last_wheel_timestamp s).

Definition flush_due (cfg : build) (timestamp : Z) (s : statics) : bool :=
  LOGGER_SD cfg && tick_gate (flush_interval cfg) timestamp (last_sd_timestamp s).

(** Overwriting the front of the buffer with a frame. *)
Definition overlay (frame b : list Z) : list Z := frame ++ drop (length frame) b.

(** A gated block: when due, the frame goes into the buffer and out to
    [logger_output], and the gate is set. *)
Definition gated (due : bool) (frame : list Z) (set : statics -> statics)
    (s : statics) : statics * list call :=
  if due then (set (set_buf s (overlay frame (buf s))), [Output frame])
  else (s, []).

Definition iteration_outcome (cfg : build) (r : reads) (s : statics)
    : statics * list call :=
  let t := u32 (tx_time_get r) in
  let s0 := set_buf s (overlay (header cfg t) (buf s)) in
  let '(s1, c1) := gated (ldps_due cfg t s0) (ldps_frame cfg r t)
                     (fun s => set_last_ldps s t) s0 in
  let '(s2, c2) := gated (acc_due cfg r s1) (acc_frame cfg r t)
                     (fun s => set_last_acc s (u32 (imu_acc_timestamp_after r))) s1 in
  let '(s3, c3) := gated (gyro_due cfg r s2) (gyro_frame cfg r t)
                     (fun s => set_last_gyro s (u32 (imu_gyro_timestamp_after r))) s2 in
  let '(s4, c4) := gated (wheel_due cfg t s3) (wheel_frame cfg r t)
                     (fun s => set_last_wheel s t) s3 in
  let '(s5, c5) := if flush_due cfg t s4 then (set_last_sd s4 t, [Flush])
                   else (s4, []) in
  (s5, c1 ++ c2 ++ c3 ++ c4 ++ c5).

Fixpoint loop_outcome (cfg : build) (rs : list reads) (s : statics)
    : statics * list (list call) :=
  match rs with
  | [] => (s, [])
  | r :: rs' =>
      let '(s1, c) := iteration_outcome cfg r s in
      let '(s2, cs) := loop_outcome cfg rs' s1 in
      (s2, c :: cs)
  end.

(** The frames fit the 128-byte buffer. *)
Definition fits (cfg : build) : Prop :=
  (8 + LDPS_N cfg * 2 <= 128)%nat /\ (WHEEL_N cfg * 4 + 7 <= 128)%nat.

(** The buffer is whole and its first four bytes hold the tick of the
    current pass. *)
Definition stamped (cfg : build) (timestamp : Z) (s : statics) : Prop :=
  length (buf s) = 128%nat /\ take 4 (buf s) = header cfg timestamp.

End Layout.
Import Layout.

(** ** Choosing the log file (lines 86-99) *)

Module Rotation.

(** The part of the FileX medium the search touches: the names in the
    directory and the file [logger_file] is open on, if any. *)
Record disk := {
  files : gset string;
  logger_file : option string
}.

(** Modelled from the spec: [fx_file_open] belongs to FileX, a library
    that is not among the sources of the firmware.  Section 4.1 uses the
    open as the test for existence.  An open never succeeds on a name that
    is not in the directory ("if the open succeeds, the id is already
    taken"), and on a control block that is closed it succeeds on every
    name that is ("if the open fails, treat the failure as
    does-not-exist"); a successful open leaves [logger_file] open on the
    name, a failed one leaves it as it was.

    The algorithm of section 4.1 closes the file after each successful
    probe, so it never asks FileX to open a control block that is still
    open, and the specification does not say what FileX answers then.  The
    loop of lines 87-99 does ask, from its second probe on.  The answer is
    the parameter [reopen] of the model: [reopen held fn] tells whether the
    open of the existing file [fn] is accepted while [logger_file] is
    still open on [held]. *)
Definition fx_file_open (reopen : string -> string -> bool) (d : disk)
    (fn : string) : bool * disk :=
  let accepted :=
    match logger_file d with
    | None => true
    | Some held => reopen held fn
    end in
  if decide (fn ∈ files d) then
    if accepted
    then (true, {| files := files d; logger_file := Some fn |})
    else (false, d)
  else (false, d).

(** Modelled from the spec: [fx_file_close] of FileX, which releases the
    file control block. *)
Definition fx_file_close (d : disk) : disk :=
  {| files := files d; logger_file := None |}.

(** Modelled from the spec: [fx_file_create] of FileX, which adds the name
    to the directory. *)
Definition fx_file_create (d : disk) (fn : string) : disk :=
  {| files := ({[ fn ]} ∪ files d); logger_file := logger_file d |}.

(** [sprintf(fn, "fsae-%04d.log", fid)] for the values [fid] takes here,
    which are never negative. *)
Definition decimal (v : Z) : string :=
  NilEmpty.string_of_uint (N.to_uint (Z.to_N v)).

Definition zero_pad (width : nat) (s : string) : string :=
  Nat.iter (width - String.length s) (String "0"%char) s.

Definition log_name (fid : Z) : string :=
  "fsae-" +:+ zero_pad 4 (decimal fid) +:+ ".log".

Definition INT_MAX : Z := 2 ^ 31 - 1.

(** How the search ends: with a file chosen, created and opened; in the
    undefined signed overflow of [fid++]; or not within the given number
    of rounds. *)
Inductive search :=
| Selected (fid : Z) (d : disk)
| Overflow
| Unfinished.

(** The [while (1)] of line 87, run for at most [rounds] rounds.  A probe
    that opens the file only advances [fid] (line 98): [logger_file] stays
    open on it.  [fx_file_close] is called in the other branch alone. *)
Fixpoint select_file (reopen : string -> string -> bool) (rounds : nat)
    (fid : Z) (d : disk) : search :=
  match rounds with
  | O => Unfinished
  | S rounds' =>
      let fn := log_name fid in
      let '(status, d) := fx_file_open reopen d fn in
      if negb status then
        let d := fx_file_close d in
        let d := fx_file_create d fn in
        let '(_, d) := fx_file_open reopen d fn in
        (* fx_file_seek(&logger_file, 0): the model keeps no file offset *)
        Selected fid d
      else if decide (fid = INT_MAX) then Overflow
      else select_file reopen rounds' (fid + 1) d
  end.


End Rotation.
Import Rotation.

(** ** Reading a run *)

Module Observe.

(** The frames handed to [logger_output], in order. *)
Fixpoint frames (cs : list call) : list (list Z) :=
  match cs with
  | [] => []
  | Output f :: cs' => f :: frames cs'
  | Flush :: cs' => frames cs'
  end.

(** Whether [fx_media_flush] was called. *)
Fixpoint flushes (cs : list call) : bool :=
  match cs with
  | [] => false
  | Output _ :: cs' => flushes cs'
  | Flush :: _ => true
  end.

(** The sensor id byte of a frame, at offset 4. *)
Definition sensor_id (f : list Z) : option Z := f !! 4%nat.

(** The frames of one sensor class. *)
Definition class_frames (id : Z) (cs : list call) : list (list Z) :=
  filter (fun f => sensor_id f = Some id) (frames cs).

(** The frames of one sensor class that went out in the passes picked by
    [sel]; [css] holds the calls of each pass of [rs]. *)
Fixpoint frames_at (id : Z) (sel : reads -> bool) (rs : list reads)
    (css : list (list call)) : list (list Z) :=
  match rs, css with
  | r :: rs', c :: css' =>
      (if sel r then class_frames id c else []) ++ frames_at id sel rs' css'
  | _, _ => []
  end.

(** The values the loop reads from a driver's sample timestamp, in
    program order.  Every pass reads it for the test of the gate (lines
    130 and 142); a pass that emits reads it once more, after
    [logger_output] has returned, for the store (lines 139 and 151).
    [last] is the value stored so far. *)
Fixpoint edge_reads (test after : reads -> Z) (last : Z) (rs : list reads)
    : list Z :=
  match rs with
  | [] => []
  | r :: rs' =>
      if edge_gate (test r) last
      then u32 (test r) :: u32 (after r)
           :: edge_reads test after (u32 (after r)) rs'
      else u32 (test r) :: edge_reads test after last rs'
  end.

(** The reads of [imu.acc.timestamp] and of [imu.gyro.timestamp] in a run
    from state [s]; none when the IMU is compiled out. *)
Definition acc_reads (cfg : build) (rs : list reads) (s : statics) : list Z :=
  if IMU_ENABLE cfg
  then edge_reads imu_acc_timestamp imu_acc_timestamp_after
         (last_acc_timestamp s) rs
  else [].

Definition gyro_reads (cfg : build) (rs : list reads) (s : statics) : list Z :=
  if IMU_ENABLE cfg
  then edge_reads imu_gyro_timestamp imu_gyro_timestamp_after
         (last_gyro_timestamp s) rs
  else [].

(** The tick a frame carries in its first four bytes. *)
Definition frame_timestamp (cfg : build) (f : list Z) : Z :=
  object_value (target_order cfg) (take 4 f).

(** The tick of a pass, as the loop captures it. *)
Definition tick (r : reads) : Z := u32 (tx_time_get r).

(** The frames of one pass, class by class. *)
Definition iteration_frames (cfg : build) (r : reads) (s : statics)
    : list (list Z) :=
  (if ldps_due cfg (tick r) s then [ldps_frame cfg r (tick r)] else [])
  ++ (if acc_due cfg r s then [acc_frame cfg r (tick r)] else [])
  ++ (if gyro_due cfg r s then [gyro_frame cfg r (tick r)] else [])
  ++ (if wheel_due cfg (tick r) s then [wheel_frame cfg r (tick r)] else []).

(** Which passes flush, as a function of the ticks alone; [last] is the
    tick of the latest flush. *)
Fixpoint flush_pattern (interval : Z) (ticks : list Z) (last : Z) : list bool :=
  match ticks with
  | [] => []
  | t :: ticks' =>
      let due := tick_gate interval t last in
      due :: flush_pattern interval ticks' (if due then t else last)
  end.

(** The ticks at which a tick-gated class emits, as a function of the
    ticks of the passes; [last] is the tick of its latest frame. *)
Fixpoint gate_ticks (threshold : Z) (ticks : list Z) (last : Z) : list Z :=
  match ticks with
  | [] => []
  | t :: ticks' =>
      if tick_gate threshold t last
      then t :: gate_ticks threshold ticks' t
      else gate_ticks threshold ticks' last
  end.

End Observe.
Import Observe.

(** ** Concrete builds and readings used in the examples *)

Module Examples.

(** A little-endian build with two range sensors, four wheels and a
    tick of one millisecond. *)
Definition build_le : build :=
  {| LDPS_ENABLE := true; IMU_ENABLE := true; WHEEL_ENABLE := true;
     LOGGER_SD := true; LOGGER_USB_SERIAL := false;
     LDPS_N := 2; WHEEL_N := 4;
     TX_TIMER_TICKS_PER_SECOND := 1000;
     target_order := LittleEndian |}.

(** The same build for a big-endian target. *)
Definition build_be : build :=
  {| LDPS_ENABLE := true; IMU_ENABLE := true; WHEEL_ENABLE := true;
     LOGGER_SD := true; LOGGER_USB_SERIAL := false;
     LDPS_N := 2; WHEEL_N := 4;
     TX_TIMER_TICKS_PER_SECOND := 1000;
     target_order := BigEndian |}.

(** Readings at tick [t]: range values 100 and 200, the accelerometer at
    (-1, 0, 32767) with sample timestamp [acc_ts], a still gyroscope with
    sample timestamp [gyro_ts], and all wheels at 1.0 RPM (0x3F800000). *)
Definition readings (t acc_ts gyro_ts : Z) : reads :=
  {| tx_time_get := t;
     ldps_read := fun i => match i with O => 100 | _ => 200 end;
     imu_acc_timestamp := acc_ts;
     imu_acc_raw := {| axis_x := -1; axis_y := 0; axis_z := 32767 |};
     imu_acc_timestamp_after := acc_ts;
     imu_gyro_timestamp := gyro_ts;
     imu_gyro_raw := {| axis_x := 0; axis_y := 0; axis_z := 0 |};
     imu_gyro_timestamp_after := gyro_ts;
     wheel_rpm := fun _ => 0x3F800000 |}.

(** The same readings when the drivers publish a new sample while the
    frame is being written: the store after [logger_output] reads
    [acc_after] and [gyro_after]. *)
Definition readings_racing (t acc_ts acc_after gyro_ts gyro_after : Z) : reads :=
  {| tx_time_get := t;
     ldps_read := ldps_read (readings t acc_ts gyro_ts);
     imu_acc_timestamp := acc_ts;
     imu_acc_raw := imu_acc_raw (readings t acc_ts gyro_ts);
     imu_acc_timestamp_after := acc_after;
     imu_gyro_timestamp := gyro_ts;
     imu_gyro_raw := imu_gyro_raw (readings t acc_ts gyro_ts);
     imu_gyro_timestamp_after := gyro_after;
     wheel_rpm := wheel_rpm (readings t acc_ts gyro_ts) |}.

(** The worked example of the range array as section 8 of the
    specification words it: with little-endian encoding, readings 100 and
    200 give the bytes [01 04 00 64 00 C8 0D 0A] after the timestamp. *)
Definition range_example_as_stated : Prop :=
  forall (cfg : build) (r : reads) (s s' : statics) (cs : list call) (f : list Z),
    target_order cfg = LittleEndian -> LDPS_N cfg = 2%nat ->
    ldps_read r 0%nat = 100 -> ldps_read r 1%nat = 200 ->
    logger_iteration cfg r s = Some (s', cs) ->
    f ∈ class_frames 0x01 cs ->
    drop 4 f = [0x01; 0x04; 0x00; 0x64; 0x00; 0xC8; 0x0D; 0x0A]
    /\ length f = 12%nat.

(** The flush property as section 8 of the specification words it: over
    any stretch of passes across which a whole flush interval elapses,
    there is a flush. *)
Definition flush_every_interval_as_stated : Prop :=
  forall (cfg : build) (rs : list reads) (s' : statics) (css : list (list call)),
    fits cfg -> LOGGER_SD cfg = true -> Sorted Z.le (tick <$> rs) ->
    logger_loop cfg rs statics_init = Some (s', css) ->
    forall (i j : nat) (ti tj : Z),
      (i < j)%nat ->
      (tick <$> rs) !! i = Some ti -> (tick <$> rs) !! j = Some tj ->
      flush_interval cfg <= tj - ti ->
      exists k c, (i < k <= j)%nat /\ css !! k = Some c /\ flushes c = true.

End Examples.
Import Examples.

(** ** Further readings of a run *)

Module Cover.

(** What went out on the USB link, and the sensor ids printed on the RTT
    trace channel. *)
Fixpoint usb_writes (acts : list sink_action) : list (list Z) :=
  match acts with
  | [] => []
  | CDC_Transmit_FS bytes :: acts' => bytes :: usb_writes acts'
  | _ :: acts' => usb_writes acts'
  end.

Fixpoint rtt_ids (acts : list sink_action) : list Z :=
  match acts with
  | [] => []
  | SEGGER_RTT_printf id :: acts' => id :: rtt_ids acts'
  | _ :: acts' => rtt_ids acts'
  end.

Fixpoint media_flushes (acts : list sink_action) : nat :=
  match acts with
  | [] => O
  | fx_media_flush :: acts' => S (media_flushes acts')
  | _ :: acts' => media_flushes acts'
  end.

(** The [width] bytes of a frame that start at offset [off]. *)
Definition field (off width : nat) (f : list Z) : list Z :=
  take width (drop off f).

(** A 16-bit pattern read as [int16_t]. *)
Definition signed16 (u : Z) : Z := if u <? 2 ^ 15 then u else u - 2 ^ 16.

(** Whether a pass handed out a frame of the class. *)
Definition emits (id : Z) (cs : list call) : bool :=
  match class_frames id cs with
  | [] => false
  | _ :: _ => true
  end.

(** Where a sequence of values differs from its predecessor; [prev] comes
    before the first. *)
Fixpoint changes (prev : Z) (vals : list Z) : list bool :=
  match vals with
  | [] => []
  | v :: vals' => negb (bool_decide (v = prev)) :: changes v vals'
  end.

End Cover.
Import Cover.

(** * Facts about the embedding *)

(** ** Object representations *)

Section MachFacts.

Lemma length_le_bytes n v : length (le_bytes n v) = n.
Proof. revert v; induction n as [|n IH]; intros v; simpl; [done|]. by rewrite IH. Qed.

Lemma length_object_bytes o n v : length (object_bytes o n v) = n.
Proof. destruct o; simpl; rewrite ?length_rev; apply length_le_bytes. Qed.

Lemma le_value_le_bytes n v :
  le_value (le_bytes n v) = v mod 256 ^ Z.of_nat n.
Proof.
  revert v; induction n as [|n IH]; intros v.
  - simpl. by rewrite Z.mod_1_r.
  - cbn [le_bytes le_value]. rewrite IH.
    rewrite Nat2Z.inj_succ, Z.pow_succ_r by lia.
    rewrite (Z.rem_mul_r v 256 (256 ^ Z.of_nat n)) by lia. lia.
Qed.

Lemma object_value_bytes o n v :
  object_value o (object_bytes o n v) = v mod 256 ^ Z.of_nat n.
Proof.
  destruct o; simpl; rewrite ?rev_involutive; apply le_value_le_bytes.
Qed.

Lemma u32_range v : 0 <= u32 v < 2 ^ 32.
Proof. unfold u32. apply Z.mod_pos_bound. lia. Qed.

Lemma u32_idem v : u32 (u32 v) = u32 v.
Proof. unfold u32. apply Z.mod_mod. lia. Qed.

Lemma u32_small v : 0 <= v < 2 ^ 32 -> u32 v = v.
Proof. intros. unfold u32. by apply Z.mod_small. Qed.

Lemma object_value_u32 o v :
  object_value o (object_bytes o 4 (u32 v)) = u32 v.
Proof.
  rewrite object_value_bytes. change (256 ^ Z.of_nat 4) with (2 ^ 32).
  apply u32_idem.
Qed.

Lemma length_array_bytes o w val count i :
  length (array_bytes o w val count i) = (count * w)%nat.
Proof.
  revert i; induction count as [|c IH]; intros i; simpl; [done|].
  rewrite length_app, length_object_bytes, IH. lia.
Qed.

End MachFacts.

(** ** Writing the buffer front to back *)

Section BufFacts.

Lemma store_at (pre rest : list Z) i b :
  i = length pre -> (0 < length rest)%nat ->
  store (pre ++ rest) i b = Some ((pre ++ [b]) ++ drop 1 rest).
Proof.
  intros -> Hlen. unfold store. rewrite length_app.
  case_decide; [|lia]. f_equal.
  destruct rest as [|r rest]; [simpl in Hlen; lia|].
  rewrite insert_app_r_alt by lia. rewrite Nat.sub_diag. simpl.
  by rewrite <- app_assoc.
Qed.

Lemma memcpy_at (pre rest src : list Z) off :
  off = length pre -> (length src <= length rest)%nat ->
  memcpy (pre ++ rest) off src = Some ((pre ++ src) ++ drop (length src) rest).
Proof.
  intros -> Hlen. unfold memcpy. rewrite length_app.
  case_decide; [|lia]. f_equal.
  rewrite take_app_length. rewrite drop_app_add'; [|done].
  by rewrite <- app_assoc.
Qed.

Lemma read_at (pre rest : list Z) len :
  len = length pre -> read (pre ++ rest) len = Some pre.
Proof.
  intros ->. unfold read. rewrite length_app. case_decide; [|lia].
  by rewrite take_app_length.
Qed.

Lemma for_memcpy_at o w base val count i (pre rest : list Z) :
  length pre = (base + i * w)%nat -> (count * w <= length rest)%nat ->
  for_memcpy o w base val count i (pre ++ rest)
  = Some ((pre ++ array_bytes o w val count i) ++ drop (count * w) rest).
Proof.
  revert i pre rest. induction count as [|c IH]; intros i pre rest Hpre Hrest.
  - simpl. by rewrite app_nil_r, drop_0.
  - cbn [for_memcpy array_bytes].
    rewrite memcpy_at; [|done|rewrite length_object_bytes; lia].
    cbn [mbind option_bind]. rewrite length_object_bytes.
    rewrite IH.
    + rewrite drop_drop. rewrite <- !app_assoc. by do 3 f_equal.
    + rewrite length_app, length_object_bytes. lia.
    + rewrite length_drop. lia.
Qed.

End BufFacts.

(** ** The blocks compute the layouts *)

(** Side conditions on offsets and remaining room. *)
Ltac buf_len :=
  rewrite ?length_app, ?length_drop, ?length_array_bytes,
    ?length_object_bytes;
  cbn [length]; lia.

Section BlockFacts.

Context (cfg : build).

Lemma length_header t : length (header cfg t) = 4%nat.
Proof. apply length_object_bytes. Qed.

Lemma length_axes_payload raw : length (axes_payload cfg raw) = 6%nat.
Proof. unfold axes_payload. by rewrite !length_app, !length_object_bytes. Qed.

Lemma length_ldps_payload r : length (ldps_payload cfg r) = (LDPS_N cfg * 2)%nat.
Proof. apply length_array_bytes. Qed.

Lemma length_wheel_payload r : length (wheel_payload cfg r) = (WHEEL_N cfg * 4)%nat.
Proof. apply length_array_bytes. Qed.

Lemma length_frame_with_length hdr id payload :
  length (frame_with_length hdr id payload) = (length hdr + 2 + length payload + 2)%nat.
Proof. unfold frame_with_length, EOL. rewrite !length_app. simpl. lia. Qed.

Lemma length_frame_fixed hdr id payload :
  length (frame_fixed hdr id payload) = (length hdr + 1 + length payload + 2)%nat.
Proof. unfold frame_fixed, EOL. rewrite !length_app. simpl. lia. Qed.

Lemma stamped_split t s :
  stamped cfg t s ->
  buf s = header cfg t ++ drop 4 (buf s) /\ length (drop 4 (buf s)) = 124%nat.
Proof.
  intros [Hlen Hhdr]. split.
  - by rewrite <- Hhdr, take_drop.
  - rewrite length_drop. lia.
Qed.

Lemma length_overlay (frame b : list Z) :
  (length frame <= length b)%nat -> length (overlay frame b) = length b.
Proof. intros H. unfold overlay. rewrite length_app, length_drop. lia. Qed.

Lemma take_overlay_header t (tl b : list Z) :
  take 4 (overlay (header cfg t ++ tl) b) = header cfg t.
Proof.
  unfold overlay. rewrite <- app_assoc.
  rewrite take_app_le by (rewrite length_header; lia).
  apply take_ge. rewrite length_header. lia.
Qed.

Lemma ldps_block_outcome r t s :
  fits cfg -> stamped cfg t s ->
  ldps_block cfg r t s
  = Some (gated (ldps_due cfg t s) (ldps_frame cfg r t)
            (fun s => set_last_ldps s t) s).
Proof.
  intros [HL _] Hst. destruct (stamped_split _ _ Hst) as [Hbuf _].
  destruct Hst as [Hlen _].
  unfold ldps_block, gated, ldps_due, tick_gate, threshold.
  destruct (LDPS_ENABLE cfg && _); [|done].
  assert (Hu8 : u8 (Z.of_nat (LDPS_N cfg * 2))
                = Z.of_nat (length (ldps_payload cfg r))).
  { rewrite length_ldps_payload. unfold u8. change (2 ^ 8) with 256.
    apply Z.mod_small. lia. }
  rewrite Hbuf at 1.
  rewrite store_at by (rewrite ?length_app, ?length_header; buf_len). cbn [mbind option_bind].
  rewrite store_at by (rewrite ?length_app, ?length_header; buf_len). cbn [mbind option_bind].
  rewrite for_memcpy_at by (rewrite ?length_app, ?length_header; buf_len). cbn [mbind option_bind].
  rewrite store_at by (rewrite ?length_app, ?length_header; buf_len). cbn [mbind option_bind].
  rewrite store_at by (rewrite ?length_app, ?length_header; buf_len). cbn [mbind option_bind].
  rewrite read_at by (rewrite ?length_app, ?length_header; buf_len). cbn [mbind option_bind].
  rewrite Hu8.
  assert (Hfr : ((((header cfg t ++ [1]) ++ [Z.of_nat (length (ldps_payload cfg r))])
                  ++ array_bytes (target_order cfg) 2 (ldps_read r) (LDPS_N cfg) 0)
                  ++ [13]) ++ [10] = ldps_frame cfg r t).
  { unfold ldps_frame, frame_with_length, ldps_payload, EOL.
    by rewrite <- !app_assoc. }
  rewrite Hfr. do 4 f_equal. unfold overlay. f_equal.
  rewrite !drop_drop. f_equal.
  unfold ldps_frame. rewrite length_frame_with_length, length_header,
    length_ldps_payload. lia.
Qed.

Lemma imu_frame_writes_outcome id raw t (b : list Z) :
  length b = 128%nat -> take 4 b = header cfg t ->
  imu_frame_writes cfg id raw b
  = Some (overlay (frame_with_length (header cfg t) id (axes_payload cfg raw)) b,
          frame_with_length (header cfg t) id (axes_payload cfg raw)).
Proof.
  intros Hlen Hhdr.
  assert (Hbuf : b = header cfg t ++ drop 4 b) by (by rewrite <- Hhdr, take_drop).
  unfold imu_frame_writes. rewrite Hbuf at 1.
  rewrite store_at by (rewrite ?length_app, ?length_header; buf_len).
  cbn [mbind option_bind].
  rewrite store_at by (rewrite ?length_app, ?length_header; buf_len).
  cbn [mbind option_bind].
  do 3 (rewrite memcpy_at by (rewrite ?length_app, ?length_header; buf_len);
        cbn [mbind option_bind]; rewrite length_object_bytes).
  do 2 (rewrite store_at by (rewrite ?length_app, ?length_header; buf_len);
        cbn [mbind option_bind]).
  rewrite read_at by (rewrite ?length_app, ?length_header; buf_len).
  cbn [mbind option_bind].
  assert (Hfr : ((((((header cfg t ++ [id]) ++ [6])
                    ++ object_bytes (target_order cfg) 2 (axis_x raw))
                   ++ object_bytes (target_order cfg) 2 (axis_y raw))
                  ++ object_bytes (target_order cfg) 2 (axis_z raw))
                 ++ [13]) ++ [10]
                = frame_with_length (header cfg t) id (axes_payload cfg raw)).
  { unfold frame_with_length, EOL. rewrite length_axes_payload.
    unfold axes_payload. by rewrite <- !app_assoc. }
  rewrite Hfr. do 2 f_equal. unfold overlay. f_equal.
  rewrite !drop_drop. f_equal.
  by rewrite length_frame_with_length, length_header, length_axes_payload.
Qed.

Lemma acc_block_outcome r t s :
  stamped cfg t s ->
  acc_block cfg r s
  = Some (gated (acc_due cfg r s) (acc_frame cfg r t)
            (fun s => set_last_acc s (u32 (imu_acc_timestamp_after r))) s).
Proof.
  intros [Hlen Hhdr]. unfold acc_block, gated, acc_due, edge_gate.
  destruct (IMU_ENABLE cfg && _); [|done].
  by rewrite (imu_frame_writes_outcome _ _ t).
Qed.

Lemma gyro_block_outcome r t s :
  stamped cfg t s ->
  gyro_block cfg r s
  = Some (gated (gyro_due cfg r s) (gyro_frame cfg r t)
            (fun s => set_last_gyro s (u32 (imu_gyro_timestamp_after r))) s).
Proof.
  intros [Hlen Hhdr]. unfold gyro_block, gated, gyro_due, edge_gate.
  destruct (IMU_ENABLE cfg && _); [|done].
  by rewrite (imu_frame_writes_outcome _ _ t).
Qed.

Lemma wheel_block_outcome r t s :
  fits cfg -> stamped cfg t s ->
  wheel_block cfg r t s
  = Some (gated (wheel_due cfg t s) (wheel_frame cfg r t)
            (fun s => set_last_wheel s t) s).
Proof.
  intros [_ HW] Hst. destruct (stamped_split _ _ Hst) as [Hbuf _].
  destruct Hst as [Hlen _].
  unfold wheel_block, gated, wheel_due, tick_gate, threshold.
  destruct (WHEEL_ENABLE cfg && _); [|done].
  rewrite Hbuf at 1.
  rewrite store_at by (rewrite ?length_app, ?length_header; buf_len).
  cbn [mbind option_bind].
  rewrite for_memcpy_at by (rewrite ?length_app, ?length_header; buf_len).
  cbn [mbind option_bind].
  do 2 (rewrite store_at by (rewrite ?length_app, ?length_header; buf_len);
        cbn [mbind option_bind]).
  rewrite read_at by (rewrite ?length_app, ?length_header; buf_len).
  cbn [mbind option_bind].
  assert (Hfr : (((header cfg t ++ [4])
                  ++ array_bytes (target_order cfg) 4 (wheel_rpm r) (WHEEL_N cfg) 0)
                 ++ [13]) ++ [10] = wheel_frame cfg r t).
  { unfold wheel_frame, frame_fixed, wheel_payload, EOL.
    by rewrite <- !app_assoc. }
  rewrite Hfr. do 4 f_equal. unfold overlay. f_equal.
  rewrite !drop_drop. f_equal.
  unfold wheel_frame. rewrite length_frame_fixed, length_header,
    length_wheel_payload. lia.
Qed.

Lemma stamp_block_outcome t s :
  length (buf s) = 128%nat ->
  stamp_block cfg t s = Some (set_buf s (overlay (header cfg t) (buf s)), []).
Proof.
  intros Hlen. unfold stamp_block.
  change (buf s) with ([] ++ buf s) at 1.
  rewrite memcpy_at by (rewrite ?length_object_bytes; simpl; lia).
  cbn [mbind option_bind app]. unfold overlay, header.
  by rewrite !length_object_bytes.
Qed.

Lemma gated_stamped t due frame tl set s :
  stamped cfg t s -> frame = header cfg t ++ tl -> (length frame <= 128)%nat ->
  (forall s', buf (set s') = buf s') ->
  stamped cfg t (gated due frame set s).1.
Proof.
  intros [Hlen Hhdr] -> Hfr Hset. unfold gated. destruct due; [|done].
  cbn [fst]. split; rewrite Hset; cbn [buf set_buf].
  - rewrite length_overlay; [done|lia].
  - apply take_overlay_header.
Qed.

Lemma fits_ldps_frame r t : fits cfg -> (length (ldps_frame cfg r t) <= 128)%nat.
Proof.
  intros [HL _]. unfold ldps_frame.
  rewrite length_frame_with_length, length_header, length_ldps_payload. lia.
Qed.

Lemma fits_wheel_frame r t : fits cfg -> (length (wheel_frame cfg r t) <= 128)%nat.
Proof.
  intros [_ HW]. unfold wheel_frame.
  rewrite length_frame_fixed, length_header, length_wheel_payload. lia.
Qed.

Lemma length_imu_frame id raw t :
  length (frame_with_length (header cfg t) id (axes_payload cfg raw)) = 14%nat.
Proof. by rewrite length_frame_with_length, length_header, length_axes_payload. Qed.

Lemma iteration_outcome_stamped r s :
  fits cfg -> length (buf s) = 128%nat ->
  stamped cfg (u32 (tx_time_get r)) (iteration_outcome cfg r s).1.
Proof.
  intros Hfits Hlen. unfold iteration_outcome.
  set (t := u32 (tx_time_get r)).
  set (s0 := set_buf s (overlay (header cfg t) (buf s))).
  assert (H0 : stamped cfg t s0).
  { split; cbn [s0 buf set_buf].
    - rewrite length_overlay; [done|rewrite length_header; lia].
    - rewrite <- (app_nil_r (header cfg t)) at 1. apply take_overlay_header. }
  pose proof (gated_stamped t (ldps_due cfg t s0) (ldps_frame cfg r t) _
                (fun s => set_last_ldps s t) s0 H0 eq_refl
                (fits_ldps_frame r t Hfits) (fun _ => eq_refl)) as H1.
  destruct (gated (ldps_due cfg t s0) _ _ s0) as [s1 c1]. cbn [fst] in H1.
  pose proof (gated_stamped t (acc_due cfg r s1) (acc_frame cfg r t) _
                (fun s => set_last_acc s (u32 (imu_acc_timestamp_after r))) s1
                H1 eq_refl) as H2.
  destruct (gated (acc_due cfg r s1) _ _ s1) as [s2 c2]. cbn [fst] in H2.
  specialize (H2 ltac:(unfold acc_frame; rewrite length_imu_frame; lia)
                 (fun _ => eq_refl)).
  pose proof (gated_stamped t (gyro_due cfg r s2) (gyro_frame cfg r t) _
                (fun s => set_last_gyro s (u32 (imu_gyro_timestamp_after r))) s2
                H2 eq_refl) as H3.
  destruct (gated (gyro_due cfg r s2) _ _ s2) as [s3 c3]. cbn [fst] in H3.
  specialize (H3 ltac:(unfold gyro_frame; rewrite length_imu_frame; lia)
                 (fun _ => eq_refl)).
  pose proof (gated_stamped t (wheel_due cfg t s3) (wheel_frame cfg r t) _
                (fun s => set_last_wheel s t) s3 H3 eq_refl
                (fits_wheel_frame r t Hfits) (fun _ => eq_refl)) as H4.
  destruct (gated (wheel_due cfg t s3) _ _ s3) as [s4 c4]. cbn [fst] in H4.
  by destruct (flush_due cfg t s4).
Qed.

Lemma sd_block_outcome t s :
  sd_block cfg t s
  = Some (if flush_due cfg t s then (set_last_sd s t, [Flush]) else (s, [])).
Proof.
  unfold sd_block, flush_due, tick_gate, flush_interval.
  by destruct (LOGGER_SD cfg && _).
Qed.

(** The loop body never leaves the buffer, and computes the outcome told
    in terms of the frame layouts. *)
Lemma logger_iteration_outcome r s :
  fits cfg -> length (buf s) = 128%nat ->
  logger_iteration cfg r s = Some (iteration_outcome cfg r s).
Proof.
  intros Hfits Hlen. unfold logger_iteration, and_then, iteration_outcome.
  set (t := u32 (tx_time_get r)).
  rewrite stamp_block_outcome by done. cbn [mbind option_bind].
  set (s0 := set_buf s (overlay (header cfg t) (buf s))).
  assert (H0 : stamped cfg t s0).
  { split; cbn [s0 buf set_buf].
    - rewrite length_overlay; [done|rewrite length_header; lia].
    - rewrite <- (app_nil_r (header cfg t)) at 1. apply take_overlay_header. }
  rewrite (ldps_block_outcome r t s0 Hfits H0). cbn [mbind option_bind].
  pose proof (gated_stamped t (ldps_due cfg t s0) (ldps_frame cfg r t) _
                (fun s => set_last_ldps s t) s0 H0 eq_refl
                (fits_ldps_frame r t Hfits) (fun _ => eq_refl)) as H1.
  destruct (gated (ldps_due cfg t s0) _ _ s0) as [s1 c1]. cbn [fst] in H1.
  rewrite (acc_block_outcome r t s1 H1). cbn [mbind option_bind].
  pose proof (gated_stamped t (acc_due cfg r s1) (acc_frame cfg r t) _
                (fun s => set_last_acc s (u32 (imu_acc_timestamp_after r))) s1
                H1 eq_refl) as H2.
  destruct (gated (acc_due cfg r s1) _ _ s1) as [s2 c2]. cbn [fst] in H2.
  specialize (H2 ltac:(unfold acc_frame; rewrite length_imu_frame; lia)
                 (fun _ => eq_refl)).
  rewrite (gyro_block_outcome r t s2 H2). cbn [mbind option_bind].
  pose proof (gated_stamped t (gyro_due cfg r s2) (gyro_frame cfg r t) _
                (fun s => set_last_gyro s (u32 (imu_gyro_timestamp_after r))) s2
                H2 eq_refl) as H3.
  destruct (gated (gyro_due cfg r s2) _ _ s2) as [s3 c3]. cbn [fst] in H3.
  specialize (H3 ltac:(unfold gyro_frame; rewrite length_imu_frame; lia)
                 (fun _ => eq_refl)).
  rewrite (wheel_block_outcome r t s3 Hfits H3). cbn [mbind option_bind].
  destruct (gated (wheel_due cfg t s3) _ _ s3) as [s4 c4].
  rewrite sd_block_outcome. cbn [mbind option_bind].
  by destruct (flush_due cfg t s4).
Qed.

Lemma logger_loop_outcome rs s :
  fits cfg -> length (buf s) = 128%nat ->
  logger_loop cfg rs s = Some (loop_outcome cfg rs s).
Proof.
  intros Hfits. revert s. induction rs as [|r rs IH]; intros s Hlen; [done|].
  cbn [logger_loop loop_outcome].
  rewrite logger_iteration_outcome by done. cbn [mbind option_bind].
  pose proof (iteration_outcome_stamped r s Hfits Hlen) as [Hlen1 _].
  destruct (iteration_outcome cfg r s) as [s1 c]. cbn [fst] in Hlen1.
  rewrite IH by done. cbn [mbind option_bind].
  by destruct (loop_outcome cfg rs s1).
Qed.

End BlockFacts.

(** ** What one pass emits and how it moves the gates *)

Section IterationFacts.

Context (cfg : build).

Lemma iteration_outcome_proj r s :
  let s' := (iteration_outcome cfg r s).1 in
  let cs := (iteration_outcome cfg r s).2 in
  frames cs = iteration_frames cfg r s
  /\ flushes cs = flush_due cfg (tick r) s
  /\ last_ldps_timestamp s'
     = (if ldps_due cfg (tick r) s then tick r else last_ldps_timestamp s)
  /\ last_acc_timestamp s'
     = (if acc_due cfg r s then u32 (imu_acc_timestamp_after r)
        else last_acc_timestamp s)
  /\ last_gyro_timestamp s'
     = (if gyro_due cfg r s then u32 (imu_gyro_timestamp_after r)
        else last_gyro_timestamp s)
  /\ last_wheel_timestamp s'
     = (if wheel_due cfg (tick r) s then tick r else last_wheel_timestamp s)
  /\ last_sd_timestamp s'
     = (if flush_due cfg (tick r) s then tick r else last_sd_timestamp s).
Proof.
  unfold iteration_outcome, iteration_frames, gated, tick,
    ldps_due, acc_due, gyro_due, wheel_due, flush_due.
  cbn [set_buf buf last_ldps_timestamp].
  destruct (LDPS_ENABLE cfg && _);
    cbn [set_buf set_last_ldps buf last_acc_timestamp];
  (destruct (IMU_ENABLE cfg && _);
    cbn [set_buf set_last_ldps set_last_acc buf last_gyro_timestamp];
   (destruct (IMU_ENABLE cfg && _);
     cbn [set_buf set_last_ldps set_last_acc set_last_gyro buf
          last_wheel_timestamp];
    (destruct (WHEEL_ENABLE cfg && _);
      cbn [set_buf set_last_ldps set_last_acc set_last_gyro set_last_wheel buf
           last_sd_timestamp];
     (destruct (LOGGER_SD cfg && _); cbn; repeat split; reflexivity)))).
Qed.

End IterationFacts.

(** ** Frames of a pass and of a run *)

Section FrameFacts.

Context (cfg : build).

Lemma frames_app c1 c2 : frames (c1 ++ c2) = frames c1 ++ frames c2.
Proof.
  induction c1 as [|[f|] c1 IH]; simpl; [done| |done]. by rewrite IH.
Qed.

Lemma flushes_app c1 c2 : flushes (c1 ++ c2) = flushes c1 || flushes c2.
Proof. induction c1 as [|[f|] c1 IH]; simpl; done. Qed.

(** With the SD sink compiled in, the log file receives the frames, whole
    and in order. *)
Lemma file_writes_sink_trace cs :
  LOGGER_SD cfg = true -> file_writes (sink_trace cfg cs) = frames cs.
Proof.
  intros Hsd. induction cs as [|[f|] cs IH]; [done| |done].
  cbn [sink_trace flat_map frames]. unfold logger_output at 1. rewrite Hsd.
  cbn [app file_writes]. f_equal.
  destruct (LOGGER_USB_SERIAL cfg); exact IH.
Qed.

Lemma frames_concat_cons c css :
  frames (concat (c :: css)) = frames c ++ frames (concat css).
Proof. simpl. apply frames_app. Qed.

Lemma sensor_id_frame_with_length t id payload :
  sensor_id (frame_with_length (header cfg t) id payload) = Some id.
Proof.
  unfold sensor_id, frame_with_length.
  rewrite lookup_app_r; rewrite length_header; [done|lia].
Qed.

Lemma sensor_id_frame_fixed t id payload :
  sensor_id (frame_fixed (header cfg t) id payload) = Some id.
Proof.
  unfold sensor_id, frame_fixed.
  rewrite lookup_app_r; rewrite length_header; [done|lia].
Qed.

Lemma take_header_app t tl : take 4 (header cfg t ++ tl) = header cfg t.
Proof.
  rewrite take_app_le by (rewrite length_header; lia).
  apply take_ge. rewrite length_header. lia.
Qed.

Lemma frame_timestamp_header t tl :
  frame_timestamp cfg (header cfg (u32 t) ++ tl) = u32 t.
Proof.
  unfold frame_timestamp. rewrite take_header_app. apply object_value_u32.
Qed.

(** Every frame of a pass is one of the four layouts, stamped with the
    tick of that pass. *)
Lemma elem_of_iteration_frames r s f :
  f ∈ iteration_frames cfg r s ->
  (ldps_due cfg (tick r) s = true /\ f = ldps_frame cfg r (tick r))
  \/ (acc_due cfg r s = true /\ f = acc_frame cfg r (tick r))
  \/ (gyro_due cfg r s = true /\ f = gyro_frame cfg r (tick r))
  \/ (wheel_due cfg (tick r) s = true /\ f = wheel_frame cfg r (tick r)).
Proof.
  unfold iteration_frames. intros H.
  apply elem_of_app in H as [H|H]; [|apply elem_of_app in H as [H|H];
    [|apply elem_of_app in H as [H|H]]].
  - destruct (ldps_due cfg (tick r) s); [|by apply elem_of_nil in H].
    apply list_elem_of_singleton in H. tauto.
  - destruct (acc_due cfg r s); [|by apply elem_of_nil in H].
    apply list_elem_of_singleton in H. tauto.
  - destruct (gyro_due cfg r s); [|by apply elem_of_nil in H].
    apply list_elem_of_singleton in H. tauto.
  - destruct (wheel_due cfg (tick r) s); [|by apply elem_of_nil in H].
    apply list_elem_of_singleton in H. tauto.
Qed.

Lemma frames_iteration_outcome r s :
  frames (iteration_outcome cfg r s).2 = iteration_frames cfg r s.
Proof. apply iteration_outcome_proj. Qed.

Lemma length_buf_iteration_outcome r s :
  fits cfg -> length (buf s) = 128%nat ->
  length (buf (iteration_outcome cfg r s).1) = 128%nat.
Proof. intros Hf Hl. by destruct (iteration_outcome_stamped cfg r s Hf Hl). Qed.

(** Every frame of a run comes from one of its passes. *)
Lemma elem_of_loop_frames rs s f :
  f ∈ frames (concat (loop_outcome cfg rs s).2) ->
  exists r s0, r ∈ rs /\ f ∈ iteration_frames cfg r s0.
Proof.
  revert s. induction rs as [|r rs IH]; intros s; cbn [loop_outcome].
  - simpl. by rewrite elem_of_nil.
  - pose proof (frames_iteration_outcome r s) as Hfr.
    destruct (iteration_outcome cfg r s) as [s1 c]. cbn [snd] in Hfr.
    specialize (IH s1). destruct (loop_outcome cfg rs s1) as [s2 cs].
    cbn [snd] in *. rewrite frames_concat_cons, elem_of_app, Hfr.
    intros [Hin|Hin].
    + exists r, s. split; [left|done].
    + destruct (IH Hin) as (r' & s0 & Hr' & Hf). exists r', s0.
      split; [by right|done].
Qed.

End FrameFacts.

(** * The claims about the frame format *)

Section FormatClaims.

Lemma drop_EOL (body : list Z) :
  drop (length (body ++ EOL) - 2) (body ++ EOL) = EOL.
Proof.
  rewrite length_app. cbn [length EOL].
  replace (length body + 2 - 2)%nat with (length body) by lia.
  by rewrite drop_app_length.
Qed.

Lemma frame_with_length_EOL hdr id payload :
  frame_with_length hdr id payload
  = (hdr ++ [id; Z.of_nat (length payload)] ++ payload) ++ EOL.
Proof. unfold frame_with_length. by rewrite <- !app_assoc. Qed.

Lemma frame_fixed_EOL hdr id payload :
  frame_fixed hdr id payload = (hdr ++ [id] ++ payload) ++ EOL.
Proof. unfold frame_fixed. by rewrite <- !app_assoc. Qed.

Lemma iteration_frame_EOL cfg r s f :
  f ∈ iteration_frames cfg r s -> drop (length f - 2) f = EOL.
Proof.
  intros Hf. apply elem_of_iteration_frames in Hf.
  destruct Hf as [[_ ->]|[[_ ->]|[[_ ->]|[_ ->]]]];
    unfold ldps_frame, acc_frame, gyro_frame, wheel_frame;
    rewrite ?frame_with_length_EOL, ?frame_fixed_EOL; apply drop_EOL.
Qed.

(** C7.  In every run of the loop that stays inside the buffer (which it
    does whenever the frames fit), each frame handed to [logger_output],
    whatever its sensor class, has [0x0D] and then [0x0A] as its last two
    bytes. *)
Theorem every_frame_ends_with_EOL (cfg : build) (rs : list reads) (s : statics) :
  fits cfg -> length (buf s) = 128%nat ->
  exists s' css,
    logger_loop cfg rs s = Some (s', css)
    /\ forall f, f ∈ frames (concat css) ->
         drop (length f - 2) f = [0x0D; 0x0A].
Proof.
  intros Hfits Hlen.
  exists (loop_outcome cfg rs s).1, (loop_outcome cfg rs s).2. split.
  - rewrite logger_loop_outcome by done. by destruct (loop_outcome cfg rs s).
  - intros f Hf. apply elem_of_loop_frames in Hf as (r & s0 & _ & Hf).
    by apply iteration_frame_EOL in Hf.
Qed.

Lemma every_frame_ends_with_EOL_witness :
  fits build_le /\ length (buf statics_init) = 128%nat
  /\ exists s' css,
       logger_loop build_le [readings 2 1 1; readings 4 2 1] statics_init
       = Some (s', css)
       /\ forall f, f ∈ frames (concat css) ->
            drop (length f - 2) f = [0x0D; 0x0A].
Proof.
  assert (Hfits : fits build_le) by (split; simpl; lia).
  split; [exact Hfits|]. split; [reflexivity|].
  apply (every_frame_ends_with_EOL build_le _ statics_init Hfits).
  reflexivity.
Defined.

(** C2.  Every frame of a run is one of four shapes, told apart by the
    sensor id at offset 4.  For ids 1, 2 and 3 the byte at offset 5 is the
    number of payload bytes that follow it, before the two closing bytes:
    [2 * LDPS_N] for the range array and 6 for the accelerometer and the
    gyroscope.  For id 4 there is no such byte: with four wheels the 16
    payload bytes (four 4-byte values) start right after the id. *)
Theorem data_length_is_payload_size (cfg : build) (rs : list reads) (s : statics) :
  fits cfg -> WHEEL_N cfg = 4%nat -> length (buf s) = 128%nat ->
  exists s' css,
    logger_loop cfg rs s = Some (s', css)
    /\ forall f, f ∈ frames (concat css) ->
       exists r hdr payload,
         r ∈ rs /\ hdr = object_bytes (target_order cfg) 4 (u32 (tx_time_get r))
         /\ length hdr = 4%nat
         /\ ((sensor_id f = Some 0x01
              /\ f = hdr ++ [0x01; Z.of_nat (length payload)] ++ payload ++ [0x0D; 0x0A]
              /\ payload = ldps_payload cfg r
              /\ length payload = (2 * LDPS_N cfg)%nat)
             \/ (sensor_id f = Some 0x02
                 /\ f = hdr ++ [0x02; Z.of_nat (length payload)] ++ payload ++ [0x0D; 0x0A]
                 /\ payload = axes_payload cfg (imu_acc_raw r)
                 /\ length payload = 6%nat)
             \/ (sensor_id f = Some 0x03
                 /\ f = hdr ++ [0x03; Z.of_nat (length payload)] ++ payload ++ [0x0D; 0x0A]
                 /\ payload = axes_payload cfg (imu_gyro_raw r)
                 /\ length payload = 6%nat)
             \/ (sensor_id f = Some 0x04
                 /\ f = hdr ++ [0x04] ++ payload ++ [0x0D; 0x0A]
                 /\ payload = wheel_payload cfg r
                 /\ length payload = 16%nat)).
Proof.
  intros Hfits HW Hlen.
  exists (loop_outcome cfg rs s).1, (loop_outcome cfg rs s).2. split.
  - rewrite logger_loop_outcome by done. by destruct (loop_outcome cfg rs s).
  - intros f Hf. apply elem_of_loop_frames in Hf as (r & s0 & Hr & Hf).
    apply elem_of_iteration_frames in Hf.
    destruct Hf as [[_ ->]|[[_ ->]|[[_ ->]|[_ ->]]]].
    + exists r, (header cfg (tick r)), (ldps_payload cfg r).
      split; [done|]. split; [done|]. split; [apply length_header|].
      left. split; [apply sensor_id_frame_with_length|].
      split; [done|]. split; [done|]. rewrite length_ldps_payload. lia.
    + exists r, (header cfg (tick r)), (axes_payload cfg (imu_acc_raw r)).
      split; [done|]. split; [done|]. split; [apply length_header|].
      right; left. split; [apply sensor_id_frame_with_length|].
      split; [done|]. split; [done|]. apply length_axes_payload.
    + exists r, (header cfg (tick r)), (axes_payload cfg (imu_gyro_raw r)).
      split; [done|]. split; [done|]. split; [apply length_header|].
      right; right; left. split; [apply sensor_id_frame_with_length|].
      split; [done|]. split; [done|]. apply length_axes_payload.
    + exists r, (header cfg (tick r)), (wheel_payload cfg r).
      split; [done|]. split; [done|]. split; [apply length_header|].
      right; right; right. split; [apply sensor_id_frame_fixed|].
      split; [done|]. split; [done|]. rewrite length_wheel_payload, HW. done.
Qed.

Lemma data_length_is_payload_size_witness :
  fits build_le /\ WHEEL_N build_le = 4%nat
  /\ length (buf statics_init) = 128%nat
  /\ exists s' css,
       logger_loop build_le [readings 2 1 1; readings 4 2 1] statics_init
       = Some (s', css).
Proof.
  assert (Hfits : fits build_le) by (split; simpl; lia).
  split; [exact Hfits|]. split; [reflexivity|]. split; [reflexivity|].
  destruct (data_length_is_payload_size build_le
              [readings 2 1 1; readings 4 2 1] statics_init
              Hfits eq_refl eq_refl) as (s' & css & Hrun & _).
  by exists s', css.
Defined.

(** The frames of each class within a pass. *)
Lemma class_frames_unfold id cs :
  class_frames id cs = filter (fun f => sensor_id f = Some id) (frames cs).
Proof. done. Qed.

Lemma filter_class_singleton (id id' : Z) (f : list Z) :
  sensor_id f = Some id' ->
  filter (fun f => sensor_id f = Some id) [f] = if decide (id' = id) then [f] else [].
Proof.
  intros Hid. case_decide as Heq.
  - rewrite filter_cons_True; [done|]. by rewrite Hid, Heq.
  - rewrite filter_cons_False; [done|]. rewrite Hid. congruence.
Qed.

Lemma filter_class_iteration_frames cfg r s id :
  filter (fun f => sensor_id f = Some id) (iteration_frames cfg r s)
  = (if ldps_due cfg (tick r) s && bool_decide (0x01 = id)
     then [ldps_frame cfg r (tick r)] else [])
    ++ (if acc_due cfg r s && bool_decide (0x02 = id)
        then [acc_frame cfg r (tick r)] else [])
    ++ (if gyro_due cfg r s && bool_decide (0x03 = id)
        then [gyro_frame cfg r (tick r)] else [])
    ++ (if wheel_due cfg (tick r) s && bool_decide (0x04 = id)
        then [wheel_frame cfg r (tick r)] else []).
Proof.
  unfold iteration_frames. rewrite !filter_app.
  f_equal; [|f_equal; [|f_equal]].
  - destruct (ldps_due cfg (tick r) s); [|done]. cbn [andb].
    rewrite (filter_class_singleton id 1)
      by apply sensor_id_frame_with_length.
    by case_bool_decide; case_decide.
  - destruct (acc_due cfg r s); [|done]. cbn [andb].
    rewrite (filter_class_singleton id 2)
      by apply sensor_id_frame_with_length.
    by case_bool_decide; case_decide.
  - destruct (gyro_due cfg r s); [|done]. cbn [andb].
    rewrite (filter_class_singleton id 3)
      by apply sensor_id_frame_with_length.
    by case_bool_decide; case_decide.
  - destruct (wheel_due cfg (tick r) s); [|done]. cbn [andb].
    rewrite (filter_class_singleton id 4)
      by apply sensor_id_frame_fixed.
    by case_bool_decide; case_decide.
Qed.

Lemma class_frames_iteration cfg r s :
  let cs := (iteration_outcome cfg r s).2 in
  class_frames 0x01 cs
  = (if ldps_due cfg (tick r) s then [ldps_frame cfg r (tick r)] else [])
  /\ class_frames 0x02 cs
     = (if acc_due cfg r s then [acc_frame cfg r (tick r)] else [])
  /\ class_frames 0x03 cs
     = (if gyro_due cfg r s then [gyro_frame cfg r (tick r)] else [])
  /\ class_frames 0x04 cs
     = (if wheel_due cfg (tick r) s then [wheel_frame cfg r (tick r)] else []).
Proof.
  cbn zeta. rewrite !class_frames_unfold, frames_iteration_outcome.
  rewrite !filter_class_iteration_frames.
  destruct (ldps_due cfg (tick r) s), (acc_due cfg r s), (gyro_due cfg r s),
    (wheel_due cfg (tick r) s); done.
Qed.

Lemma logger_iteration_runs cfg r s :
  fits cfg -> length (buf s) = 128%nat ->
  logger_iteration cfg r s
  = Some ((iteration_outcome cfg r s).1, (iteration_outcome cfg r s).2).
Proof.
  intros Hfits Hlen. rewrite logger_iteration_outcome by done.
  by destruct (iteration_outcome cfg r s).
Qed.

(** C3, as the specification words it, fails: on a little-endian target the
    two payload bytes of each reading come low byte first. *)
Lemma range_example_as_stated_fails : ~ range_example_as_stated.
Proof.
  intros H.
  specialize (H build_le (readings 2 0 0) statics_init
                (iteration_outcome build_le (readings 2 0 0) statics_init).1
                (iteration_outcome build_le (readings 2 0 0) statics_init).2
                [2; 0; 0; 0; 0x01; 0x04; 0x64; 0x00; 0xC8; 0x00; 0x0D; 0x0A]
                eq_refl eq_refl eq_refl eq_refl).
  assert (Hrun : logger_iteration build_le (readings 2 0 0) statics_init
                 = Some ((iteration_outcome build_le (readings 2 0 0) statics_init).1,
                         (iteration_outcome build_le (readings 2 0 0) statics_init).2))
    by (vm_compute; reflexivity).
  assert (Hcls : class_frames 1
                   (iteration_outcome build_le (readings 2 0 0) statics_init).2
                 = [[2; 0; 0; 0; 0x01; 0x04; 0x64; 0x00; 0xC8; 0x00; 0x0D; 0x0A]])
    by (vm_compute; reflexivity).
  rewrite Hcls in H. destruct (H Hrun) as [Hbytes _].
  - by apply list_elem_of_singleton.
  - discriminate Hbytes.
Qed.

(** Sixty-one range sensors no longer fit: the closing bytes of the frame
    would land behind the buffer, and the pass is undefined. *)
Example frames_must_fit :
  logger_iteration
    {| LDPS_ENABLE := true; IMU_ENABLE := false; WHEEL_ENABLE := false;
       LOGGER_SD := false; LOGGER_USB_SERIAL := false;
       LDPS_N := 61; WHEEL_N := 4; TX_TIMER_TICKS_PER_SECOND := 1000;
       target_order := LittleEndian |}
    (readings 2 0 0) statics_init
  = None.
Proof. vm_compute. reflexivity. Qed.

(** What the little-endian build hands out at tick 2, class by class. *)
Example frames_at_tick_2 :
  frames (iteration_outcome build_le (readings 2 7 0) statics_init).2
  = [ [2; 0; 0; 0; 0x01; 0x04; 0x64; 0x00; 0xC8; 0x00; 0x0D; 0x0A];
      [2; 0; 0; 0; 0x02; 0x06; 0xFF; 0xFF; 0x00; 0x00; 0xFF; 0x7F; 0x0D; 0x0A];
      [2; 0; 0; 0; 0x04; 0x00; 0x00; 0x80; 0x3F; 0x00; 0x00; 0x80; 0x3F;
       0x00; 0x00; 0x80; 0x3F; 0x00; 0x00; 0x80; 0x3F; 0x0D; 0x0A] ].
Proof. vm_compute. reflexivity. Qed.

(** The bytes the specification lists are those of a big-endian target. *)
Example range_example_big_endian :
  class_frames 0x01 (iteration_outcome build_be (readings 2 0 0) statics_init).2
  = [[0; 0; 0; 2; 0x01; 0x04; 0x00; 0x64; 0x00; 0xC8; 0x0D; 0x0A]].
Proof. vm_compute. reflexivity. Qed.

(** C3, amended.  With two range sensors reading 100 and 200 on a
    little-endian target, a pass in which the range array is due hands out
    exactly one frame of class 1: the four timestamp bytes followed by
    [01 04 64 00 C8 00 0D 0A], twelve bytes in all. *)
Theorem range_example_little_endian (cfg : build) (r : reads) (s : statics) :
  fits cfg -> length (buf s) = 128%nat ->
  target_order cfg = LittleEndian -> LDPS_N cfg = 2%nat ->
  ldps_read r 0%nat = 100 -> ldps_read r 1%nat = 200 ->
  ldps_due cfg (tick r) s = true ->
  exists s' cs f,
    logger_iteration cfg r s = Some (s', cs)
    /\ class_frames 0x01 cs = [f]
    /\ take 4 f = le_bytes 4 (u32 (tx_time_get r))
    /\ drop 4 f = [0x01; 0x04; 0x64; 0x00; 0xC8; 0x00; 0x0D; 0x0A]
    /\ length f = 12%nat.
Proof.
  intros Hfits Hlen Hord HN H0 H1 Hdue.
  exists (iteration_outcome cfg r s).1, (iteration_outcome cfg r s).2,
    (ldps_frame cfg r (tick r)).
  split; [by apply logger_iteration_runs|].
  destruct (class_frames_iteration cfg r s) as (Hc & _). cbn zeta in Hc.
  rewrite Hc, Hdue. split; [done|].
  assert (Hfr : ldps_frame cfg r (tick r)
                = header cfg (tick r) ++ [1; 4; 100; 0; 200; 0; 13; 10]).
  { unfold ldps_frame, frame_with_length, ldps_payload. rewrite HN, Hord.
    cbn [array_bytes]. by rewrite H0, H1. }
  rewrite Hfr. split; [|split].
  - rewrite take_header_app. unfold header. by rewrite Hord.
  - rewrite drop_app_length'; [done|by rewrite length_header].
  - rewrite length_app, length_header. done.
Qed.

Lemma range_example_little_endian_witness :
  exists s' cs f,
    logger_iteration build_le (readings 2 0 0) statics_init = Some (s', cs)
    /\ class_frames 0x01 cs = [f]
    /\ take 4 f = le_bytes 4 (u32 2)
    /\ drop 4 f = [0x01; 0x04; 0x64; 0x00; 0xC8; 0x00; 0x0D; 0x0A]
    /\ length f = 12%nat.
Proof.
  apply (range_example_little_endian build_le (readings 2 0 0) statics_init);
    [split; simpl; lia|reflexivity..].
Defined.

End FormatClaims.

(** * The claims about one pass of the loop *)

Section IterationClaims.

Lemma sensor_ids_iteration_frames cfg r s :
  sensor_id <$> iteration_frames cfg r s
  = (if ldps_due cfg (tick r) s then [Some 0x01] else [])
    ++ (if acc_due cfg r s then [Some 0x02] else [])
    ++ (if gyro_due cfg r s then [Some 0x03] else [])
    ++ (if wheel_due cfg (tick r) s then [Some 0x04] else []).
Proof.
  unfold iteration_frames. rewrite !fmap_app.
  f_equal; [|f_equal; [|f_equal]].
  - destruct (ldps_due cfg (tick r) s); [|done]. cbn [fmap list_fmap].
    unfold ldps_frame. by rewrite sensor_id_frame_with_length.
  - destruct (acc_due cfg r s); [|done]. cbn [fmap list_fmap].
    unfold acc_frame. by rewrite sensor_id_frame_with_length.
  - destruct (gyro_due cfg r s); [|done]. cbn [fmap list_fmap].
    unfold gyro_frame. by rewrite sensor_id_frame_with_length.
  - destruct (wheel_due cfg (tick r) s); [|done]. cbn [fmap list_fmap].
    unfold wheel_frame. by rewrite sensor_id_frame_fixed.
Qed.

(** C8.  A pass hands its frames to [logger_output] in the order range
    array, accelerometer, gyroscope, wheel speed: the frames are, in this
    order, the complete frame of each class whose gate is open on the
    statics the pass starts with (each gate belongs to one class, and the
    buffer the classes share has gone out before the next class writes it).
    So a pass emits at most four frames, and their sensor ids are a
    subsequence of 1, 2, 3, 4. *)
Theorem classes_in_fixed_order (cfg : build) (r : reads) (s : statics) :
  fits cfg -> length (buf s) = 128%nat ->
  exists s' cs,
    logger_iteration cfg r s = Some (s', cs)
    /\ frames cs
       = (if ldps_due cfg (tick r) s then [ldps_frame cfg r (tick r)] else [])
         ++ (if acc_due cfg r s then [acc_frame cfg r (tick r)] else [])
         ++ (if gyro_due cfg r s then [gyro_frame cfg r (tick r)] else [])
         ++ (if wheel_due cfg (tick r) s then [wheel_frame cfg r (tick r)] else [])
    /\ (length (frames cs) <= 4)%nat
    /\ sensor_id <$> frames cs
       `sublist_of` [Some 0x01; Some 0x02; Some 0x03; Some 0x04].
Proof.
  intros Hfits Hlen.
  exists (iteration_outcome cfg r s).1, (iteration_outcome cfg r s).2.
  split; [by apply logger_iteration_runs|].
  rewrite frames_iteration_outcome. split; [done|].
  assert (Hsub : sensor_id <$> iteration_frames cfg r s
                 `sublist_of` [Some 1; Some 2; Some 3; Some 4]).
  { rewrite sensor_ids_iteration_frames.
    destruct (ldps_due cfg (tick r) s), (acc_due cfg r s), (gyro_due cfg r s),
      (wheel_due cfg (tick r) s); cbn [app];
      repeat first [apply sublist_nil | apply sublist_skip | apply sublist_cons]. }
  split; [|done].
  apply sublist_length in Hsub. by rewrite length_fmap in Hsub.
Qed.

Lemma classes_in_fixed_order_witness :
  exists s' cs,
    logger_iteration build_le (readings 2 7 0) statics_init = Some (s', cs)
    /\ (length (frames cs) <= 4)%nat
    /\ sensor_id <$> frames cs
       `sublist_of` [Some 0x01; Some 0x02; Some 0x03; Some 0x04].
Proof.
  destruct (classes_in_fixed_order build_le (readings 2 7 0) statics_init)
    as (s' & cs & Hrun & _ & Hlen & Hsub);
    [split; simpl; lia|reflexivity|].
  by exists s', cs.
Defined.

(** C9.  All frames of one pass start with the same four bytes: the tick
    read from [tx_time_get] at the top of the pass.  This holds for the
    accelerometer and gyroscope frames too, whatever [imu.acc.timestamp]
    and [imu.gyro.timestamp] are. *)
Theorem one_timestamp_per_iteration (cfg : build) (r : reads) (s : statics) :
  fits cfg -> length (buf s) = 128%nat ->
  exists s' cs,
    logger_iteration cfg r s = Some (s', cs)
    /\ (forall f, f ∈ frames cs ->
          take 4 f = object_bytes (target_order cfg) 4 (u32 (tx_time_get r))
          /\ frame_timestamp cfg f = u32 (tx_time_get r))
    /\ (forall f, f ∈ class_frames 0x02 cs ++ class_frames 0x03 cs ->
          frame_timestamp cfg f = u32 (tx_time_get r)).
Proof.
  intros Hfits Hlen.
  exists (iteration_outcome cfg r s).1, (iteration_outcome cfg r s).2.
  split; [by apply logger_iteration_runs|].
  assert (Hall : forall f, f ∈ frames (iteration_outcome cfg r s).2 ->
            take 4 f = object_bytes (target_order cfg) 4 (u32 (tx_time_get r))
            /\ frame_timestamp cfg f = u32 (tx_time_get r)).
  { intros f Hf. rewrite frames_iteration_outcome in Hf.
    apply elem_of_iteration_frames in Hf.
    destruct Hf as [[_ ->]|[[_ ->]|[[_ ->]|[_ ->]]]];
      unfold ldps_frame, acc_frame, gyro_frame, wheel_frame,
        frame_with_length, frame_fixed, tick;
      (split; [apply take_header_app|apply frame_timestamp_header]). }
  split; [exact Hall|].
  intros f Hf. apply Hall.
  rewrite !class_frames_unfold in Hf.
  apply elem_of_app in Hf as [Hf|Hf]; by apply list_elem_of_filter in Hf as [_ Hf].
Qed.

Lemma one_timestamp_per_iteration_witness :
  exists s' cs,
    logger_iteration build_le (readings 1000 7 9) statics_init = Some (s', cs)
    /\ (forall f, f ∈ frames cs -> frame_timestamp build_le f = 1000)
    /\ length (class_frames 0x02 cs ++ class_frames 0x03 cs) = 2%nat.
Proof.
  destruct (one_timestamp_per_iteration build_le (readings 1000 7 9) statics_init)
    as (s' & cs & Hrun & Hall & _); [split; simpl; lia|reflexivity|].
  exists s', cs. split; [exact Hrun|]. split.
  - intros f Hf. by destruct (Hall f Hf).
  - injection Hrun as _ <-. reflexivity.
Defined.

End IterationClaims.

(** * Runs of the loop *)

Section RunFacts.

Context (cfg : build).

Lemma loop_outcome_cons r rs s :
  loop_outcome cfg (r :: rs) s
  = ((loop_outcome cfg rs (iteration_outcome cfg r s).1).1,
     (iteration_outcome cfg r s).2
     :: (loop_outcome cfg rs (iteration_outcome cfg r s).1).2).
Proof.
  cbn [loop_outcome]. destruct (iteration_outcome cfg r s) as [s1 c].
  cbn [fst snd]. by destruct (loop_outcome cfg rs s1).
Qed.

Lemma loop_outcome_app rs1 rs2 s :
  loop_outcome cfg (rs1 ++ rs2) s
  = ((loop_outcome cfg rs2 (loop_outcome cfg rs1 s).1).1,
     (loop_outcome cfg rs1 s).2
     ++ (loop_outcome cfg rs2 (loop_outcome cfg rs1 s).1).2).
Proof.
  revert s. induction rs1 as [|r rs1 IH]; intros s.
  - cbn [app loop_outcome fst snd]. by destruct (loop_outcome cfg rs2 s).
  - rewrite <- app_comm_cons, !loop_outcome_cons, IH. done.
Qed.

Lemma length_loop_outcome rs s : length (loop_outcome cfg rs s).2 = length rs.
Proof.
  revert s. induction rs as [|r rs IH]; intros s; [done|].
  rewrite loop_outcome_cons. cbn [snd length]. by rewrite IH.
Qed.

Lemma logger_loop_runs rs s :
  fits cfg -> length (buf s) = 128%nat ->
  logger_loop cfg rs s
  = Some ((loop_outcome cfg rs s).1, (loop_outcome cfg rs s).2).
Proof.
  intros Hfits Hlen. rewrite logger_loop_outcome by done.
  by destruct (loop_outcome cfg rs s).
Qed.

Lemma class_frames_app id c1 c2 :
  class_frames id (c1 ++ c2) = class_frames id c1 ++ class_frames id c2.
Proof. unfold class_frames. by rewrite frames_app, filter_app. Qed.

Lemma class_frames_concat_cons id c css :
  class_frames id (concat (c :: css))
  = class_frames id c ++ class_frames id (concat css).
Proof. simpl. apply class_frames_app. Qed.

Lemma class_frames_concat_app id css1 css2 :
  class_frames id (concat (css1 ++ css2))
  = class_frames id (concat css1) ++ class_frames id (concat css2).
Proof. rewrite concat_app. apply class_frames_app. Qed.

Lemma tick_range r : 0 <= tick r < 2 ^ 32.
Proof. apply u32_range. Qed.

Lemma StronglySorted_lookup {A} (R : A -> A -> Prop) (l : list A) i j x y :
  StronglySorted R l -> (i < j)%nat ->
  l !! i = Some x -> l !! j = Some y -> R x y.
Proof.
  intros Hs. revert i j. induction Hs as [|a l Hs IH Hall]; intros i j Hij Hi Hj.
  - by rewrite lookup_nil in Hi.
  - destruct j as [|j]; [lia|]. cbn in Hj. destruct i as [|i].
    + cbn in Hi. injection Hi as ->.
      rewrite List.Forall_forall in Hall. apply Hall.
      apply list_elem_of_In. by eapply list_elem_of_lookup_2.
    + cbn in Hi. apply (IH i j); [lia|done..].
Qed.

End RunFacts.

(** * The claims about the tick-gated classes *)

Section TickGated.

Context (cfg : build).

Lemma tick_gate_small thr t last :
  0 <= last <= t -> t < 2 ^ 32 ->
  tick_gate thr t last = true <-> thr < t - last.
Proof.
  intros Hl Ht. unfold tick_gate. rewrite bool_decide_eq_true.
  by rewrite (u32_small (t - last)) by lia.
Qed.

Lemma gate_ticks_spaced thr ticks last :
  StronglySorted Z.le ticks -> 0 <= last ->
  Forall (fun t => last <= t < 2 ^ 32) ticks ->
  StronglySorted (fun a b => thr < b - a) (gate_ticks thr ticks last)
  /\ Forall (fun a => thr < a - last) (gate_ticks thr ticks last).
Proof.
  intros Hs. revert last.
  induction Hs as [|t ts Hs IH Hle]; intros last Hlast Hall.
  - split; constructor.
  - apply Forall_cons in Hall as [Ht Hall]. cbn [gate_ticks].
    destruct (tick_gate thr t last) eqn:Hg.
    + apply tick_gate_small in Hg; [|lia..].
      destruct (IH t) as [IHs IHf]; [lia| |].
      { rewrite List.Forall_forall in *. intros x Hx.
        specialize (Hle x Hx). specialize (Hall x Hx). lia. }
      split.
      * by constructor.
      * constructor; [done|].
        eapply Forall_impl; [exact IHf|]. intros a Ha. cbn in Ha. lia.
    + by apply IH.
Qed.

Lemma ldps_timestamps rs s :
  LDPS_ENABLE cfg = true ->
  frame_timestamp cfg <$> class_frames 0x01 (concat (loop_outcome cfg rs s).2)
  = gate_ticks (threshold cfg) (tick <$> rs) (last_ldps_timestamp s).
Proof.
  intros Hen. revert s. induction rs as [|r rs IH]; intros s; [done|].
  rewrite loop_outcome_cons. cbn [snd].
  rewrite class_frames_concat_cons, fmap_app, IH.
  destruct (class_frames_iteration cfg r s) as (-> & _).
  destruct (iteration_outcome_proj cfg r s) as (_ & _ & -> & _).
  unfold ldps_due. rewrite Hen. cbn [andb fmap list_fmap gate_ticks].
  destruct (tick_gate (threshold cfg) (tick r) (last_ldps_timestamp s)); [|done].
  cbn [fmap list_fmap app]. f_equal.
  unfold ldps_frame, frame_with_length, tick. apply frame_timestamp_header.
Qed.

Lemma wheel_timestamps rs s :
  WHEEL_ENABLE cfg = true ->
  frame_timestamp cfg <$> class_frames 0x04 (concat (loop_outcome cfg rs s).2)
  = gate_ticks (threshold cfg) (tick <$> rs) (last_wheel_timestamp s).
Proof.
  intros Hen. revert s. induction rs as [|r rs IH]; intros s; [done|].
  rewrite loop_outcome_cons. cbn [snd].
  rewrite class_frames_concat_cons, fmap_app, IH.
  destruct (class_frames_iteration cfg r s) as (_ & _ & _ & ->).
  destruct (iteration_outcome_proj cfg r s) as (_ & _ & _ & _ & _ & -> & _).
  unfold wheel_due. rewrite Hen. cbn [andb fmap list_fmap gate_ticks].
  destruct (tick_gate (threshold cfg) (tick r) (last_wheel_timestamp s)); [|done].
  cbn [fmap list_fmap app]. f_equal.
  unfold wheel_frame, frame_fixed, tick. apply frame_timestamp_header.
Qed.

Lemma ticks_bounded (rs : list reads) :
  Forall (fun t => 0 <= t < 2 ^ 32) (tick <$> rs).
Proof.
  apply Forall_fmap, Forall_forall. intros r _. apply tick_range.
Qed.

Lemma spaced_lookup thr (fs : list (list Z)) (ticks : list Z) i j f g :
  frame_timestamp cfg <$> fs = gate_ticks thr ticks 0 ->
  Sorted Z.le ticks -> Forall (fun t => 0 <= t < 2 ^ 32) ticks ->
  (i < j)%nat -> fs !! i = Some f -> fs !! j = Some g ->
  thr < frame_timestamp cfg g - frame_timestamp cfg f.
Proof.
  intros Heq Hs Hb Hij Hi Hj.
  apply Sorted_StronglySorted in Hs; [|intros x y z; lia].
  destruct (gate_ticks_spaced thr ticks 0 Hs) as [Hsp _]; [lia|done|].
  rewrite <- Heq in Hsp.
  apply (StronglySorted_lookup (fun a b => thr < b - a) _ i j _ _ Hsp Hij);
    rewrite list_lookup_fmap; [by rewrite Hi|by rewrite Hj].
Qed.

End TickGated.

(** C4.  The range array (class 1) and the wheel speed (class 4) are gated
    on the tick.  In any pass, a frame of the class goes out exactly when
    the tick of the pass minus the tick stored at the class's last frame
    (computed modulo [2^32], as the code does; the store starts at 0) is
    strictly greater than [TX_TIMER_TICKS_PER_SECOND / 1000], and the pass
    then stores its tick.  Hence, in a run from start-up whose ticks never
    decrease, any two frames of the class carry timestamps that differ by
    more than this threshold, however close together the passes are. *)
Theorem tick_gated_spacing (cfg : build) (rs : list reads) :
  fits cfg -> LDPS_ENABLE cfg = true -> WHEEL_ENABLE cfg = true ->
  Sorted Z.le (tick <$> rs) ->
  (forall r s, length (buf s) = 128%nat ->
     exists s' cs,
       logger_iteration cfg r s = Some (s', cs)
       /\ (class_frames 0x01 cs <> []
           <-> u32 (TX_TIMER_TICKS_PER_SECOND cfg) / 1000
               < u32 (tick r - last_ldps_timestamp s))
       /\ (class_frames 0x04 cs <> []
           <-> u32 (TX_TIMER_TICKS_PER_SECOND cfg) / 1000
               < u32 (tick r - last_wheel_timestamp s))
       /\ last_ldps_timestamp s'
          = (if bool_decide (class_frames 0x01 cs <> []) then tick r
             else last_ldps_timestamp s)
       /\ last_wheel_timestamp s'
          = (if bool_decide (class_frames 0x04 cs <> []) then tick r
             else last_wheel_timestamp s))
  /\ exists s' css,
       logger_loop cfg rs statics_init = Some (s', css)
       /\ forall id i j f g,
            id = 0x01 \/ id = 0x04 -> (i < j)%nat ->
            class_frames id (concat css) !! i = Some f ->
            class_frames id (concat css) !! j = Some g ->
            u32 (TX_TIMER_TICKS_PER_SECOND cfg) / 1000
            < frame_timestamp cfg g - frame_timestamp cfg f.
Proof.
  intros Hfits HL HW Hsorted. split.
  - intros r s Hlen.
    exists (iteration_outcome cfg r s).1, (iteration_outcome cfg r s).2.
    split; [by apply logger_iteration_runs|].
    destruct (class_frames_iteration cfg r s) as (-> & _ & _ & ->).
    destruct (iteration_outcome_proj cfg r s)
      as (_ & _ & -> & _ & _ & -> & _).
    unfold ldps_due, wheel_due, tick_gate, threshold. rewrite HL, HW.
    cbn [andb].
    repeat split; repeat case_bool_decide; try done; try lia.
  - exists (loop_outcome cfg rs statics_init).1,
      (loop_outcome cfg rs statics_init).2.
    split; [by apply logger_loop_runs|].
    intros id i j f g [->| ->] Hij Hi Hj.
    + eapply (spaced_lookup cfg _ _ (tick <$> rs) i j); try done.
      * by apply ldps_timestamps.
      * apply ticks_bounded.
    + eapply (spaced_lookup cfg _ _ (tick <$> rs) i j); try done.
      * by apply wheel_timestamps.
      * apply ticks_bounded.
Qed.

Lemma tick_gated_spacing_witness :
  exists s' css,
    logger_loop build_le [readings 2 0 0; readings 3 0 0; readings 5 0 0]
      statics_init = Some (s', css)
    /\ forall i j f g, (i < j)%nat ->
         class_frames 0x01 (concat css) !! i = Some f ->
         class_frames 0x01 (concat css) !! j = Some g ->
         1 < frame_timestamp build_le g - frame_timestamp build_le f.
Proof.
  destruct (tick_gated_spacing build_le
              [readings 2 0 0; readings 3 0 0; readings 5 0 0])
    as (_ & s' & css & Hrun & Hsp).
  - split; simpl; lia.
  - reflexivity.
  - reflexivity.
  - repeat constructor; vm_compute; discriminate.
  - exists s', css. split; [exact Hrun|].
    intros i j f g. apply (Hsp 1). by left.
Defined.

(** * The claims about the edge-triggered classes *)

(** The accelerometer and the gyroscope share their gate logic; it is
    proved once, for a class given by its sensor id, the two reads of the
    driver's timestamp, and the static that remembers it. *)
Section EdgeClass.

Context (cfg : build) (id : Z) (test after : reads -> Z)
  (last : statics -> Z) (frame : reads -> list Z).

Local Abbreviation due r s := (IMU_ENABLE cfg && edge_gate (test r) (last s)).

Hypothesis pass_frames : forall r s,
  class_frames id (iteration_outcome cfg r s).2
  = (if due r s then [frame r] else []).

Hypothesis pass_last : forall r s,
  last (iteration_outcome cfg r s).1
  = (if due r s then u32 (after r) else last s).

Lemma edge_due_false r s : u32 (test r) = last s -> due r s = false.
Proof.
  intros H. unfold edge_gate. rewrite bool_decide_eq_true_2 by done.
  apply andb_false_r.
Qed.

Lemma edge_quiet rs s v :
  Forall (fun r => u32 (test r) = v) rs -> last s = v ->
  class_frames id (concat (loop_outcome cfg rs s).2) = []
  /\ last (loop_outcome cfg rs s).1 = v.
Proof.
  intros Hall. revert s. induction Hall as [|r rs Hr Hall IH]; intros s Hs.
  - done.
  - rewrite loop_outcome_cons. cbn [fst snd].
    rewrite class_frames_concat_cons, pass_frames.
    assert (Hd : due r s = false) by (apply edge_due_false; congruence).
    rewrite Hd. cbn [app]. apply IH. by rewrite pass_last, Hd.
Qed.

Lemma edge_stretch rs s v :
  Forall (fun r => u32 (test r) = v /\ u32 (after r) = v) rs ->
  (length (class_frames id (concat (loop_outcome cfg rs s).2)) <= 1)%nat.
Proof.
  intros Hall. revert s. induction Hall as [|r rs [Hr Ha] Hall IH]; intros s.
  - cbn. lia.
  - rewrite loop_outcome_cons. cbn [snd].
    rewrite class_frames_concat_cons, pass_frames.
    destruct (due r s) eqn:Hd; [|apply IH].
    destruct (edge_quiet rs (iteration_outcome cfg r s).1 v) as [-> _].
    + eapply Forall_impl; [exact Hall|]. by intros r' [? _].
    + by rewrite pass_last, Hd.
    + cbn. lia.
Qed.

Lemma edge_silent_keeps rs s :
  class_frames id (concat (loop_outcome cfg rs s).2) = [] ->
  last (loop_outcome cfg rs s).1 = last s.
Proof.
  revert s. induction rs as [|r rs IH]; intros s; [done|].
  rewrite loop_outcome_cons. cbn [fst snd].
  rewrite class_frames_concat_cons, pass_frames.
  destruct (due r s) eqn:Hd; [done|]. cbn [app]. intros H.
  rewrite IH by done. by rewrite pass_last, Hd.
Qed.

(** With the IMU compiled out the class never emits. *)
Lemma edge_disabled sel rs s :
  IMU_ENABLE cfg = false ->
  frames_at id sel rs (loop_outcome cfg rs s).2 = [].
Proof.
  intros Hen. revert s. induction rs as [|r rs IH]; intros s; [done|].
  rewrite loop_outcome_cons. cbn [snd frames_at].
  rewrite pass_frames, Hen, IH. cbn [andb]. by destruct (sel r).
Qed.

(** Once the class has stored a value that is at least [v], reads that
    never decrease in program order never make a pass that reads [v]
    emit: such a pass finds [v] stored. *)
Lemma frames_at_above v rs s :
  IMU_ENABLE cfg = true -> v <= last s ->
  StronglySorted Z.le (edge_reads test after (last s) rs) ->
  Forall (fun x => last s <= x) (edge_reads test after (last s) rs) ->
  frames_at id (fun r => bool_decide (u32 (test r) = v)) rs
    (loop_outcome cfg rs s).2 = [].
Proof.
  intros Hen. revert s. induction rs as [|r rs IH]; intros s Hv Hs Hge; [done|].
  rewrite loop_outcome_cons. cbn [snd frames_at].
  cbn [edge_reads] in Hs, Hge.
  pose proof (pass_last r s) as Hl. pose proof (pass_frames r s) as Hf.
  rewrite Hen in Hl, Hf. cbn [andb] in Hl, Hf.
  destruct (edge_gate (test r) (last s)) eqn:Hd.
  - apply StronglySorted_inv in Hs as [Hs Ht].
    apply StronglySorted_inv in Hs as [Hs Ha].
    apply Forall_cons in Hge as [Hget _]. apply Forall_cons in Ht as [Hta _].
    unfold edge_gate in Hd. apply negb_true_iff, bool_decide_eq_false in Hd.
    rewrite bool_decide_eq_false_2 by lia. cbn [app].
    apply IH; rewrite Hl; [lia|done|done].
  - apply StronglySorted_inv in Hs as [Hs _].
    apply Forall_cons in Hge as [_ Hge].
    rewrite Hf. replace (if bool_decide (u32 (test r) = v) then [] else [])
      with (@nil (list Z)) by (by case_bool_decide).
    cbn [app]. apply IH; rewrite Hl; done.
Qed.

(** In a run whose reads of the driver's timestamp never decrease in
    program order, the passes whose test reads [v] emit at most one frame
    between them, also when the timestamp changes while a frame is being
    written. *)
Lemma edge_once_per_read v rs s :
  IMU_ENABLE cfg = true ->
  StronglySorted Z.le (edge_reads test after (last s) rs) ->
  (length (frames_at id (fun r => bool_decide (u32 (test r) = v)) rs
             (loop_outcome cfg rs s).2) <= 1)%nat.
Proof.
  intros Hen. revert s. induction rs as [|r rs IH]; intros s Hs; [cbn; lia|].
  rewrite loop_outcome_cons. cbn [snd frames_at].
  cbn [edge_reads] in Hs.
  pose proof (pass_last r s) as Hl. pose proof (pass_frames r s) as Hf.
  rewrite Hen in Hl, Hf. cbn [andb] in Hl, Hf.
  destruct (edge_gate (test r) (last s)) eqn:Hd.
  - apply StronglySorted_inv in Hs as [Hs Ht].
    apply StronglySorted_inv in Hs as [Hs Ha].
    apply Forall_cons in Ht as [Hta _].
    case_bool_decide as Hv.
    + rewrite Hf, frames_at_above; [cbn; lia|done| | |]; rewrite Hl;
        [lia|done|done].
    + cbn [app]. apply IH. by rewrite Hl.
  - apply StronglySorted_inv in Hs as [Hs _].
    rewrite Hf. replace (if bool_decide (u32 (test r) = v) then [] else [])
      with (@nil (list Z)) by (by case_bool_decide).
    cbn [app]. apply IH. by rewrite Hl.
Qed.

Lemma edge_once_per_value_read v rs s :
  Sorted Z.le (if IMU_ENABLE cfg then edge_reads test after (last s) rs else []) ->
  (length (frames_at id (fun r => bool_decide (u32 (test r) = v)) rs
             (loop_outcome cfg rs s).2) <= 1)%nat.
Proof.
  intros Hs. destruct (decide (IMU_ENABLE cfg = true)) as [Hen|Hen].
  - rewrite Hen in Hs. apply edge_once_per_read; [done|].
    apply Sorted_StronglySorted; [intros x y z; lia|done].
  - apply not_true_is_false in Hen. rewrite edge_disabled by done. cbn. lia.
Qed.

Lemma edge_after_emission pre re mid r s :
  let s1 := (loop_outcome cfg pre s).1 in
  let s2 := (iteration_outcome cfg re s1).1 in
  let s3 := (loop_outcome cfg mid s2).1 in
  (loop_outcome cfg (pre ++ re :: mid ++ [r]) s).2
  = (loop_outcome cfg pre s).2
    ++ (iteration_outcome cfg re s1).2
    :: (loop_outcome cfg mid s2).2 ++ [(iteration_outcome cfg r s3).2]
  /\ (class_frames id (iteration_outcome cfg re s1).2 <> [] ->
      class_frames id (concat (loop_outcome cfg mid s2).2) = [] ->
      u32 (test r) = u32 (after re) ->
      class_frames id (iteration_outcome cfg r s3).2 = []).
Proof.
  cbn zeta. split.
  - rewrite loop_outcome_app. cbn [snd]. f_equal.
    rewrite loop_outcome_cons. cbn [snd]. f_equal.
    rewrite loop_outcome_app. cbn [snd]. f_equal.
    by rewrite loop_outcome_cons.
  - intros Hem Hmid Heq. rewrite pass_frames in Hem.
    rewrite pass_frames, edge_due_false; [done|].
    rewrite (edge_silent_keeps mid _ Hmid), pass_last.
    by destruct (due re _).
Qed.

Lemma edge_first_frame pre r s :
  Forall (fun r' => u32 (test r') = last s) pre ->
  IMU_ENABLE cfg = true -> u32 (test r) <> last s ->
  (loop_outcome cfg (pre ++ [r]) s).2
  = (loop_outcome cfg pre s).2
    ++ [(iteration_outcome cfg r (loop_outcome cfg pre s).1).2]
  /\ class_frames id (concat (loop_outcome cfg pre s).2) = []
  /\ class_frames id (iteration_outcome cfg r (loop_outcome cfg pre s).1).2
     = [frame r].
Proof.
  intros Hpre Hen Hne.
  destruct (edge_quiet pre s (last s) Hpre eq_refl) as [Hq Hl].
  split; [|split; [done|]].
  - rewrite loop_outcome_app. cbn [snd]. by rewrite loop_outcome_cons.
  - rewrite pass_frames. unfold edge_gate. rewrite Hen, Hl.
    by rewrite bool_decide_eq_false_2.
Qed.

End EdgeClass.

Section EdgeTriggered.

Context (cfg : build).

Lemma acc_pass_frames r s :
  class_frames 0x02 (iteration_outcome cfg r s).2
  = (if IMU_ENABLE cfg && edge_gate (imu_acc_timestamp r) (last_acc_timestamp s)
     then [acc_frame cfg r (tick r)] else []).
Proof. by destruct (class_frames_iteration cfg r s) as (_ & -> & _). Qed.

Lemma acc_pass_last r s :
  last_acc_timestamp (iteration_outcome cfg r s).1
  = (if IMU_ENABLE cfg && edge_gate (imu_acc_timestamp r) (last_acc_timestamp s)
     then u32 (imu_acc_timestamp_after r) else last_acc_timestamp s).
Proof. by destruct (iteration_outcome_proj cfg r s) as (_ & _ & _ & -> & _). Qed.

Lemma gyro_pass_frames r s :
  class_frames 0x03 (iteration_outcome cfg r s).2
  = (if IMU_ENABLE cfg && edge_gate (imu_gyro_timestamp r) (last_gyro_timestamp s)
     then [gyro_frame cfg r (tick r)] else []).
Proof. by destruct (class_frames_iteration cfg r s) as (_ & _ & -> & _). Qed.

Lemma gyro_pass_last r s :
  last_gyro_timestamp (iteration_outcome cfg r s).1
  = (if IMU_ENABLE cfg && edge_gate (imu_gyro_timestamp r) (last_gyro_timestamp s)
     then u32 (imu_gyro_timestamp_after r) else last_gyro_timestamp s).
Proof. by destruct (iteration_outcome_proj cfg r s) as (_ & _ & _ & _ & -> & _). Qed.

End EdgeTriggered.

(** C5.  The accelerometer (class 2) and the gyroscope (class 3) are gated
    on the driver's sample timestamp; [s] is any state the loop can be in.
    - While the driver's timestamp keeps one value [v], however many passes
      that takes, at most one frame of the class goes out.
    - In a run in which the values the loop reads from the driver's
      timestamp never decrease in program order ([acc_reads],
      [gyro_reads]), the passes that find a given value [v], taken
      together, emit at most one frame of the class.  The timestamp may
      change while a frame is being written, between the test and the
      store of a pass.
    - A pass in which the driver's timestamp equals the value the class has
      stored emits no frame of the class and leaves the store alone; a pass
      that emits stores the timestamp it reads after the frame has gone out.
    - So, in a run, once a pass [re] has emitted and the passes [mid] after
      it have not, a pass [r] that finds the timestamp [re] stored emits
      nothing. *)
Theorem edge_triggered_once_per_value (cfg : build) (s : statics) :
  fits cfg -> length (buf s) = 128%nat ->
  (forall rs v,
     Forall (fun r => u32 (imu_acc_timestamp r) = v
                      /\ u32 (imu_acc_timestamp_after r) = v) rs ->
     exists s' css,
       logger_loop cfg rs s = Some (s', css)
       /\ (length (class_frames 0x02 (concat css)) <= 1)%nat)
  /\ (forall rs v,
        Forall (fun r => u32 (imu_gyro_timestamp r) = v
                         /\ u32 (imu_gyro_timestamp_after r) = v) rs ->
        exists s' css,
          logger_loop cfg rs s = Some (s', css)
          /\ (length (class_frames 0x03 (concat css)) <= 1)%nat)
  /\ (forall rs v,
        Sorted Z.le (acc_reads cfg rs s) ->
        exists s' css,
          logger_loop cfg rs s = Some (s', css)
          /\ (length (frames_at 0x02
                        (fun r => bool_decide (u32 (imu_acc_timestamp r) = v))
                        rs css) <= 1)%nat)
  /\ (forall rs v,
        Sorted Z.le (gyro_reads cfg rs s) ->
        exists s' css,
          logger_loop cfg rs s = Some (s', css)
          /\ (length (frames_at 0x03
                        (fun r => bool_decide (u32 (imu_gyro_timestamp r) = v))
                        rs css) <= 1)%nat)
  /\ (forall r,
        exists s' cs,
          logger_iteration cfg r s = Some (s', cs)
          /\ (u32 (imu_acc_timestamp r) = last_acc_timestamp s ->
              class_frames 0x02 cs = []
              /\ last_acc_timestamp s' = last_acc_timestamp s)
          /\ (class_frames 0x02 cs <> [] ->
              last_acc_timestamp s' = u32 (imu_acc_timestamp_after r))
          /\ (u32 (imu_gyro_timestamp r) = last_gyro_timestamp s ->
              class_frames 0x03 cs = []
              /\ last_gyro_timestamp s' = last_gyro_timestamp s)
          /\ (class_frames 0x03 cs <> [] ->
              last_gyro_timestamp s' = u32 (imu_gyro_timestamp_after r)))
  /\ (forall pre re mid r,
        exists s' css_pre ce css_mid c,
          logger_loop cfg (pre ++ re :: mid ++ [r]) s
          = Some (s', css_pre ++ ce :: css_mid ++ [c])
          /\ length css_pre = length pre /\ length css_mid = length mid
          /\ (class_frames 0x02 ce <> [] ->
              class_frames 0x02 (concat css_mid) = [] ->
              u32 (imu_acc_timestamp r) = u32 (imu_acc_timestamp_after re) ->
              class_frames 0x02 c = [])
          /\ (class_frames 0x03 ce <> [] ->
              class_frames 0x03 (concat css_mid) = [] ->
              u32 (imu_gyro_timestamp r) = u32 (imu_gyro_timestamp_after re) ->
              class_frames 0x03 c = [])).
Proof.
  intros Hfits Hlen. split; [|split; [|split; [|split; [|split]]]].
  - intros rs v Hall.
    exists (loop_outcome cfg rs s).1, (loop_outcome cfg rs s).2.
    split; [by apply logger_loop_runs|].
    eapply (edge_stretch cfg 2 imu_acc_timestamp imu_acc_timestamp_after
              last_acc_timestamp); [apply acc_pass_frames|apply acc_pass_last|].
    exact Hall.
  - intros rs v Hall.
    exists (loop_outcome cfg rs s).1, (loop_outcome cfg rs s).2.
    split; [by apply logger_loop_runs|].
    eapply (edge_stretch cfg 3 imu_gyro_timestamp imu_gyro_timestamp_after
              last_gyro_timestamp); [apply gyro_pass_frames|apply gyro_pass_last|].
    exact Hall.
  - intros rs v Hsorted.
    exists (loop_outcome cfg rs s).1, (loop_outcome cfg rs s).2.
    split; [by apply logger_loop_runs|].
    by apply (edge_once_per_value_read cfg 2 imu_acc_timestamp
                imu_acc_timestamp_after last_acc_timestamp
                (fun r => acc_frame cfg r (tick r))
                (acc_pass_frames cfg) (acc_pass_last cfg)).
  - intros rs v Hsorted.
    exists (loop_outcome cfg rs s).1, (loop_outcome cfg rs s).2.
    split; [by apply logger_loop_runs|].
    by apply (edge_once_per_value_read cfg 3 imu_gyro_timestamp
                imu_gyro_timestamp_after last_gyro_timestamp
                (fun r => gyro_frame cfg r (tick r))
                (gyro_pass_frames cfg) (gyro_pass_last cfg)).
  - intros r.
    exists (iteration_outcome cfg r s).1, (iteration_outcome cfg r s).2.
    split; [by apply logger_iteration_runs|].
    rewrite acc_pass_frames, acc_pass_last, gyro_pass_frames, gyro_pass_last.
    unfold edge_gate.
    destruct (IMU_ENABLE cfg); cbn [andb]; repeat case_bool_decide;
      cbn [negb]; repeat split; try done.
  - intros pre re mid r.
    pose proof (edge_after_emission cfg 2 imu_acc_timestamp
                  imu_acc_timestamp_after last_acc_timestamp
                  (fun r => acc_frame cfg r (tick r))
                  (acc_pass_frames cfg) (acc_pass_last cfg) pre re mid r s)
      as [Hcss Hacc].
    pose proof (edge_after_emission cfg 3 imu_gyro_timestamp
                  imu_gyro_timestamp_after last_gyro_timestamp
                  (fun r => gyro_frame cfg r (tick r))
                  (gyro_pass_frames cfg) (gyro_pass_last cfg) pre re mid r s)
      as [_ Hgyro].
    eexists _, _, _, _, _. split; [|split; [|split; [|split]]].
    + rewrite logger_loop_runs by done. rewrite Hcss. reflexivity.
    + apply length_loop_outcome.
    + apply length_loop_outcome.
    + exact Hacc.
    + exact Hgyro.
Qed.

Lemma edge_triggered_once_per_value_witness :
  fits build_le /\ length (buf statics_init) = 128%nat
  /\ exists s' css,
       logger_loop build_le
         [readings_racing 2 7 8 0 0; readings 3 8 0; readings 4 9 0]
         statics_init = Some (s', css)
       /\ (length (frames_at 0x02
                     (fun r => bool_decide (u32 (imu_acc_timestamp r) = 7%Z))
                     [readings_racing 2 7 8 0 0; readings 3 8 0; readings 4 9 0]
                     css) <= 1)%nat.
Proof.
  assert (Hfits : fits build_le) by (split; simpl; lia).
  split; [exact Hfits|]. split; [reflexivity|].
  destruct (edge_triggered_once_per_value build_le statics_init Hfits eq_refl)
    as (_ & _ & Hacc & _).
  apply (Hacc _ 7). repeat constructor; vm_compute; discriminate.
Defined.

(** C10.  Both edge gates start at 0.  From start-up, as long as the
    driver's timestamp reads 0 in every pass, no frame of the class goes
    out; with the IMU enabled, the first pass that reads a timestamp other
    than 0 emits the class's first frame. *)
Theorem edge_gates_start_at_zero (cfg : build) :
  fits cfg ->
  last_acc_timestamp statics_init = 0
  /\ last_gyro_timestamp statics_init = 0
  /\ (forall rs,
        Forall (fun r => u32 (imu_acc_timestamp r) = 0) rs ->
        exists s' css,
          logger_loop cfg rs statics_init = Some (s', css)
          /\ class_frames 0x02 (concat css) = [])
  /\ (forall rs,
        Forall (fun r => u32 (imu_gyro_timestamp r) = 0) rs ->
        exists s' css,
          logger_loop cfg rs statics_init = Some (s', css)
          /\ class_frames 0x03 (concat css) = [])
  /\ (forall pre r,
        IMU_ENABLE cfg = true ->
        Forall (fun r' => u32 (imu_acc_timestamp r') = 0) pre ->
        u32 (imu_acc_timestamp r) <> 0 ->
        exists s' css_pre c,
          logger_loop cfg (pre ++ [r]) statics_init = Some (s', css_pre ++ [c])
          /\ length css_pre = length pre
          /\ class_frames 0x02 (concat css_pre) = []
          /\ class_frames 0x02 c = [acc_frame cfg r (tick r)])
  /\ (forall pre r,
        IMU_ENABLE cfg = true ->
        Forall (fun r' => u32 (imu_gyro_timestamp r') = 0) pre ->
        u32 (imu_gyro_timestamp r) <> 0 ->
        exists s' css_pre c,
          logger_loop cfg (pre ++ [r]) statics_init = Some (s', css_pre ++ [c])
          /\ length css_pre = length pre
          /\ class_frames 0x03 (concat css_pre) = []
          /\ class_frames 0x03 c = [gyro_frame cfg r (tick r)]).
Proof.
  intros Hfits. split; [done|]. split; [done|].
  split; [|split; [|split]].
  - intros rs Hall.
    exists (loop_outcome cfg rs statics_init).1, (loop_outcome cfg rs statics_init).2.
    split; [by apply logger_loop_runs|].
    by apply (edge_quiet cfg 2 imu_acc_timestamp imu_acc_timestamp_after
                last_acc_timestamp (fun r => acc_frame cfg r (tick r))
                (acc_pass_frames cfg) (acc_pass_last cfg) rs statics_init 0).
  - intros rs Hall.
    exists (loop_outcome cfg rs statics_init).1, (loop_outcome cfg rs statics_init).2.
    split; [by apply logger_loop_runs|].
    by apply (edge_quiet cfg 3 imu_gyro_timestamp imu_gyro_timestamp_after
                last_gyro_timestamp (fun r => gyro_frame cfg r (tick r))
                (gyro_pass_frames cfg) (gyro_pass_last cfg) rs statics_init 0).
  - intros pre r Hen Hpre Hne.
    destruct (edge_first_frame cfg 2 imu_acc_timestamp imu_acc_timestamp_after
                last_acc_timestamp (fun r => acc_frame cfg r (tick r))
                (acc_pass_frames cfg) (acc_pass_last cfg) pre r statics_init
                Hpre Hen Hne) as (Hcss & Hq & Hf).
    eexists _, _, _. split; [|split; [|split]].
    + rewrite logger_loop_runs by done. rewrite Hcss. reflexivity.
    + apply length_loop_outcome.
    + exact Hq.
    + exact Hf.
  - intros pre r Hen Hpre Hne.
    destruct (edge_first_frame cfg 3 imu_gyro_timestamp imu_gyro_timestamp_after
                last_gyro_timestamp (fun r => gyro_frame cfg r (tick r))
                (gyro_pass_frames cfg) (gyro_pass_last cfg) pre r statics_init
                Hpre Hen Hne) as (Hcss & Hq & Hf).
    eexists _, _, _. split; [|split; [|split]].
    + rewrite logger_loop_runs by done. rewrite Hcss. reflexivity.
    + apply length_loop_outcome.
    + exact Hq.
    + exact Hf.
Qed.

Lemma edge_gates_start_at_zero_witness :
  fits build_le
  /\ exists s' css,
       logger_loop build_le [readings 2 0 0; readings 3 0 0] statics_init
       = Some (s', css)
       /\ class_frames 0x02 (concat css) = [].
Proof.
  assert (Hfits : fits build_le) by (split; simpl; lia).
  split; [exact Hfits|].
  destruct (edge_gates_start_at_zero build_le Hfits) as (_ & _ & Hacc & _).
  apply Hacc. repeat constructor.
Defined.

(** * The claim about the flush *)

Section FlushFacts.

Context (cfg : build).

Lemma flushes_iteration r s :
  flushes (iteration_outcome cfg r s).2 = flush_due cfg (tick r) s.
Proof. by destruct (iteration_outcome_proj cfg r s) as (_ & -> & _). Qed.

Lemma last_sd_iteration r s :
  last_sd_timestamp (iteration_outcome cfg r s).1
  = (if flush_due cfg (tick r) s then tick r else last_sd_timestamp s).
Proof.
  by destruct (iteration_outcome_proj cfg r s) as (_ & _ & _ & _ & _ & _ & ->).
Qed.

(** Which passes flush is a function of the ticks alone. *)
Lemma flushes_pattern rs s :
  LOGGER_SD cfg = true ->
  flushes <$> (loop_outcome cfg rs s).2
  = flush_pattern (flush_interval cfg) (tick <$> rs) (last_sd_timestamp s).
Proof.
  intros Hsd. revert s. induction rs as [|r rs IH]; intros s; [done|].
  rewrite loop_outcome_cons. cbn [snd fmap list_fmap flush_pattern].
  change (list_fmap _ _ flushes ?l) with (flushes <$> l).
  change (list_fmap _ _ tick ?l) with (tick <$> l).
  rewrite IH, flushes_iteration, last_sd_iteration.
  unfold flush_due. rewrite Hsd. done.
Qed.

Lemma flush_pattern_within interval ticks last j tj :
  0 <= last -> Forall (fun t => last <= t < 2 ^ 32) ticks ->
  ticks !! j = Some tj -> interval < tj - last ->
  exists k, (k <= j)%nat /\ flush_pattern interval ticks last !! k = Some true.
Proof.
  revert ticks last. induction j as [|j IH]; intros [|t ts] last Hl Hall Hj Hgap;
    try done; apply Forall_cons in Hall as [Ht Hall]; cbn in Hj.
  - injection Hj as ->. exists 0%nat. split; [lia|]. cbn.
    by rewrite (proj2 (tick_gate_small interval tj last ltac:(lia) ltac:(lia))).
  - cbn [flush_pattern]. destruct (tick_gate interval t last) eqn:Hg.
    + exists 0%nat. split; [lia|done].
    + destruct (IH ts last Hl Hall Hj Hgap) as (k & Hk & Hp).
      exists (S k). split; [lia|done].
Qed.

Lemma flush_pattern_between interval ticks last i j ti tj :
  StronglySorted Z.le ticks ->
  0 <= last -> Forall (fun t => last <= t < 2 ^ 32) ticks ->
  (i < j)%nat -> ticks !! i = Some ti -> ticks !! j = Some tj ->
  interval < tj - ti ->
  exists k, (i < k <= j)%nat /\ flush_pattern interval ticks last !! k = Some true.
Proof.
  intros Hs. revert last i j.
  induction Hs as [|t ts Hs IH Hle]; intros last i j Hl Hall Hij Hi Hj Hgap;
    [done|].
  apply Forall_cons in Hall as [Ht Hall].
  destruct j as [|j]; [lia|]. cbn in Hj. cbn [flush_pattern].
  set (last' := if tick_gate interval t last then t else last).
  assert (Hl' : 0 <= last' <= t) by (unfold last'; destruct (tick_gate _ _ _); lia).
  assert (Hall' : Forall (fun x => last' <= x < 2 ^ 32) ts).
  { rewrite List.Forall_forall in *. intros x Hx.
    specialize (Hle x Hx). specialize (Hall x Hx). lia. }
  destruct i as [|i]; cbn in Hi.
  - injection Hi as ->.
    destruct (flush_pattern_within interval ts last' j tj) as (k & Hk & Hp);
      [lia|done|done|lia|].
    exists (S k). split; [lia|done].
  - destruct (IH last' i j) as (k & Hk & Hp); [lia|done|lia|done..|].
    exists (S k). split; [lia|done].
Qed.

End FlushFacts.

(** The passes of a run at ticks 0, 500, 1001, 1500 and 2001 with a flush
    interval of 1000 ticks: only the third flushes, and the fifth, one
    whole interval later, does not. *)
Example flushes_at_the_boundary :
  flushes <$> (loop_outcome build_le
                 [readings 0 0 0; readings 500 0 0; readings 1001 0 0;
                  readings 1500 0 0; readings 2001 0 0] statics_init).2
  = [false; false; true; false; false].
Proof. vm_compute. reflexivity. Qed.

(** C6, as the specification words it, fails: the gate opens only when
    more than a whole interval has passed since the last flush. *)
Lemma flush_every_interval_as_stated_fails : ~ flush_every_interval_as_stated.
Proof.
  intros H.
  pose (rs := [readings 0 0 0; readings 500 0 0; readings 1001 0 0;
               readings 1500 0 0; readings 2001 0 0]).
  assert (Hfits : fits build_le) by (split; simpl; lia).
  specialize (H build_le rs (loop_outcome build_le rs statics_init).1
                (loop_outcome build_le rs statics_init).2 Hfits eq_refl).
  destruct (H ltac:(repeat constructor; vm_compute; discriminate)
              (logger_loop_runs build_le rs statics_init Hfits eq_refl)
              2%nat 4%nat 1001 2001 ltac:(lia) eq_refl eq_refl
              ltac:(vm_compute; discriminate))
    as (k & c & Hk & Hc & Hfl).
  assert (Hpat : flushes <$> (loop_outcome build_le rs statics_init).2
                 = [false; false; true; false; false])
    by exact flushes_at_the_boundary.
  assert (Hk' : (flushes <$> (loop_outcome build_le rs statics_init).2) !! k
                = Some true)
    by (by rewrite list_lookup_fmap, Hc; cbn; rewrite Hfl).
  rewrite Hpat in Hk'.
  destruct k as [|[|[|[|[|k]]]]]; try lia; discriminate Hk'.
Qed.

(** C6, amended.  The flush has a timer gate of its own.  A pass calls
    [fx_media_flush] exactly when its tick minus the tick of the last
    flush (modulo [2^32]; 0 before the first flush) is strictly greater
    than [TX_TIMER_TICKS_PER_SECOND], and then stores its tick; nothing a
    sensor does enters the test.  Hence, in a run from start-up whose ticks
    never decrease: which passes flush is determined by the ticks alone,
    so runs with the same ticks and any sensor readings flush in the same
    passes; and whenever the tick advances by more than one flush interval
    from pass [i] to pass [j], some pass after [i] and up to [j] flushes. *)
Theorem flush_has_its_own_gate (cfg : build) (rs : list reads) :
  fits cfg -> LOGGER_SD cfg = true -> Sorted Z.le (tick <$> rs) ->
  (forall r s, length (buf s) = 128%nat ->
     exists s' cs,
       logger_iteration cfg r s = Some (s', cs)
       /\ (flushes cs = true
           <-> u32 (TX_TIMER_TICKS_PER_SECOND cfg)
               < u32 (tick r - last_sd_timestamp s))
       /\ last_sd_timestamp s'
          = (if flushes cs then tick r else last_sd_timestamp s))
  /\ exists s' css,
       logger_loop cfg rs statics_init = Some (s', css)
       /\ flushes <$> css
          = flush_pattern (u32 (TX_TIMER_TICKS_PER_SECOND cfg)) (tick <$> rs) 0
       /\ (forall rs' s'' css',
             tick <$> rs' = tick <$> rs ->
             logger_loop cfg rs' statics_init = Some (s'', css') ->
             flushes <$> css' = flushes <$> css)
       /\ (forall i j ti tj,
             (i < j)%nat ->
             (tick <$> rs) !! i = Some ti -> (tick <$> rs) !! j = Some tj ->
             u32 (TX_TIMER_TICKS_PER_SECOND cfg) < tj - ti ->
             exists k c, (i < k <= j)%nat /\ css !! k = Some c /\ flushes c = true).
Proof.
  intros Hfits Hsd Hsorted. split.
  - intros r s Hlen.
    exists (iteration_outcome cfg r s).1, (iteration_outcome cfg r s).2.
    split; [by apply logger_iteration_runs|].
    rewrite flushes_iteration, last_sd_iteration.
    unfold flush_due, tick_gate, flush_interval. rewrite Hsd. cbn [andb].
    split; [|done]. by rewrite bool_decide_eq_true.
  - exists (loop_outcome cfg rs statics_init).1,
      (loop_outcome cfg rs statics_init).2.
    split; [by apply logger_loop_runs|].
    pose proof (flushes_pattern cfg rs statics_init Hsd) as Hpat.
    split; [exact Hpat|]. split.
    + intros rs' s'' css' Hticks Hrun.
      rewrite logger_loop_runs in Hrun by done. injection Hrun as _ <-.
      by rewrite Hpat, flushes_pattern, Hticks.
    + intros i j ti tj Hij Hi Hj Hgap.
      apply Sorted_StronglySorted in Hsorted; [|intros x y z; lia].
      destruct (flush_pattern_between (flush_interval cfg) (tick <$> rs) 0
                  i j ti tj Hsorted) as (k & Hk & Hp);
        [lia|apply ticks_bounded|done..|].
      change (last_sd_timestamp statics_init) with 0 in Hpat.
      rewrite <- Hpat, list_lookup_fmap in Hp.
      destruct ((loop_outcome cfg rs statics_init).2 !! k) as [c|] eqn:Hc;
        [|done].
      exists k, c. split; [done|]. split; [done|]. by injection Hp.
Qed.

Lemma flush_has_its_own_gate_witness :
  exists s' css,
    logger_loop build_le
      [readings 0 0 0; readings 500 0 0; readings 1001 0 0;
       readings 1500 0 0; readings 2002 0 0] statics_init = Some (s', css)
    /\ flushes <$> css = [false; false; true; false; true].
Proof.
  destruct (flush_has_its_own_gate build_le
              [readings 0 0 0; readings 500 0 0; readings 1001 0 0;
               readings 1500 0 0; readings 2002 0 0])
    as (_ & s' & css & Hrun & Hpat & _).
  - split; simpl; lia.
  - reflexivity.
  - repeat constructor; vm_compute; discriminate.
  - exists s', css. split; [exact Hrun|]. rewrite Hpat. reflexivity.
Defined.

(** * The claim about the choice of the log file *)

Section RotationFacts.








Context (reopen : string -> string -> bool).

(** The branch of lines 92-95: whatever made the probe fail, the file is
    there afterwards and [logger_file] is open on it. *)
Lemma failure_branch (d : disk) (fn : string) :
  (fx_file_open reopen (fx_file_create (fx_file_close d) fn) fn).2
  = {| files := ({[ fn ]} ∪ files d); logger_file := Some fn |}.
Proof.
  unfold fx_file_open, fx_file_create, fx_file_close. cbn [files logger_file].
  rewrite decide_True; [done|]. apply elem_of_union_l. by apply elem_of_singleton.
Qed.

(** One round of the search, by the outcome of its probe. *)
Lemma select_file_round (rounds : nat) (k : Z) (d : disk) :
  select_file reopen (S rounds) k d
  = if (fx_file_open reopen d (log_name k)).1
    then if decide (k = INT_MAX) then Overflow
         else select_file reopen rounds (k + 1)
                {| files := files d; logger_file := Some (log_name k) |}
    else Selected k {| files := ({[ log_name k ]} ∪ files d);
                       logger_file := Some (log_name k) |}.
Proof.
  cbn [select_file].
  pose proof (failure_branch d (log_name k)) as Hf.
  unfold fx_file_open at 1 3.
  destruct (decide (log_name k ∈ files d)) as [Hin|Hout].
  - destruct (match logger_file d with
              | Some held => reopen held (log_name k) | None => true end);
      cbn [negb fst]; [done|].
    destruct (fx_file_open _ _ _) as [st d']. cbn [snd] in Hf. by rewrite Hf.
  - cbn [negb fst].
    destruct (fx_file_open _ _ _) as [st d']. cbn [snd] in Hf. by rewrite Hf.
Qed.

(** When the probe of an id succeeds and when it does not. *)
Lemma probe_succeeds (d : disk) (fn : string) :
  (fx_file_open reopen d fn).1 = true
  <-> fn ∈ files d
      /\ forall held, logger_file d = Some held -> reopen held fn = true.
Proof.
  unfold fx_file_open.
  destruct (decide (fn ∈ files d)) as [Hin|Hout]; [|cbn; split; [done|tauto]].
  destruct (logger_file d) as [held|]; [|cbn; split; [done|done]].
  destruct (reopen held fn) eqn:E; cbn [fst]; split; try done.
  - intros _. split; [done|]. by intros ? [= <-].
  - intros [_ H]. specialize (H held eq_refl). congruence.
Qed.

(** The search from id [k], for any FileX.  The id selected is the first
    one whose probe fails: every id before it has its log in the directory
    and had its open accepted, and the selected one either has no log or
    had its open refused because [logger_file] was still open. *)
Lemma select_file_outcome (rounds : nat) (k : Z) (d : disk) :
  0 <= k ->
  match select_file reopen rounds k d with
  | Selected fid d' =>
      k <= fid
      /\ (forall m, k <= m < fid -> log_name m ∈ files d)
      /\ (forall m, k < m < fid ->
            reopen (log_name (m - 1)) (log_name m) = true)
      /\ (k < fid -> forall held,
            logger_file d = Some held -> reopen held (log_name k) = true)
      /\ (log_name fid ∈ files d ->
          (fid = k /\ exists held,
              logger_file d = Some held /\ reopen held (log_name k) = false)
          \/ (k < fid /\ reopen (log_name (fid - 1)) (log_name fid) = false))
      /\ files d' = {[ log_name fid ]} ∪ files d
      /\ logger_file d' = Some (log_name fid)
  | Overflow => forall m, k <= m <= INT_MAX -> log_name m ∈ files d
  | Unfinished => forall m, k <= m < k + Z.of_nat rounds -> log_name m ∈ files d
  end.
Proof.
  revert k d. induction rounds as [|rounds IH]; intros k d Hk.
  - cbn [select_file]. intros m Hm. lia.
  - rewrite select_file_round.
    destruct (fx_file_open reopen d (log_name k)).1 eqn:Hprobe.
    + apply probe_succeeds in Hprobe as [Hin Hacc].
      destruct (decide (k = INT_MAX)) as [->|Hne].
      { intros m Hm. by replace m with INT_MAX by lia. }
      specialize (IH (k + 1)
                    {| files := (files d); logger_file := Some (log_name k) |}
                    ltac:(lia)).
      destruct (select_file reopen rounds (k + 1) _) as [fid d'| |];
        cbn [files logger_file] in IH.
      * destruct IH as (Hle & Hbelow & Hmid & Hfirst & Hsel & Hfiles & Hopen).
        split; [lia|]. split; [|split; [|split; [|split; [|done]]]].
        -- intros m Hm. destruct (decide (m = k)) as [->|]; [done|].
           apply Hbelow. lia.
        -- intros m Hm. destruct (decide (m = k + 1)) as [->|].
           ++ replace (k + 1 - 1) with k by lia. apply Hfirst; [lia|done].
           ++ apply Hmid. lia.
        -- intros _. exact Hacc.
        -- intros Hfid. right.
           destruct (Hsel Hfid) as [(-> & held & [= <-] & Href)|[Hlt Href]].
           ++ split; [lia|]. by replace (k + 1 - 1) with k by lia.
           ++ split; [lia|done].
      * intros m Hm. destruct (decide (m = k)) as [->|]; [done|].
        apply IH. lia.
      * intros m Hm. destruct (decide (m = k)) as [->|]; [done|].
        apply IH. lia.
    + cbn [files logger_file].
      split; [lia|]. split; [intros m Hm; lia|]. split; [intros m Hm; lia|].
      split; [intros Hlt; lia|]. split; [|done].
      intros Hin. left. split; [done|].
      destruct (logger_file d) as [held|] eqn:Hh.
      * exists held. split; [done|].
        destruct (reopen held (log_name k)) eqn:E; [|done].
        assert (Hs : (fx_file_open reopen d (log_name k)).1 = true).
        { apply probe_succeeds. split; [done|]. intros ? Heq.
          rewrite Hh in Heq. by injection Heq as <-. }
        congruence.
      * assert (Hs : (fx_file_open reopen d (log_name k)).1 = true).
        { apply probe_succeeds. split; [done|]. intros ? Heq.
          rewrite Hh in Heq. discriminate. }
        congruence.
Qed.

End RotationFacts.

(** C1.  The loop of lines 87-99 does not close [logger_file] after a probe
    that opened a file: line 98 only advances [fid], where section 4.1 has
    "close it and advance", and where the loop's own other branch calls
    [fx_file_close] (line 92) before it opens again.  From the second probe
    on, FileX is therefore asked to open a control block that is still open
    on the log before.  If FileX refuses that, the probe of id 1 fails
    although its log may exist, and the search stops there: on a directory
    that holds the log of id 0 the id selected is 1, whatever else the
    directory holds.  If the log of id 1 exists, no file is created, and
    [logger_file] is left open on that existing log.  With the logs of
    ids 0, 1 and 2 the id selected is 1, not 3. *)
Theorem rotation_stops_at_refused_open (reopen : string -> string -> bool)
    (d : disk) (rounds : nat) :
  logger_file d = None -> log_name 0 ∈ files d ->
  reopen (log_name 0) (log_name 1) = false -> (2 <= rounds)%nat ->
  exists d',
    select_file reopen rounds 0 d = Selected 1 d'
    /\ files d' = {[ log_name 1 ]} ∪ files d
    /\ logger_file d' = Some (log_name 1)
    /\ (log_name 1 ∈ files d -> files d' = files d)
    /\ (files d = {[ "fsae-0000.log"; "fsae-0001.log"; "fsae-0002.log" ]}%string ->
        files d' = files d /\ log_name 3 ∉ files d').
Proof.
  intros Hclosed H0 Href Hrounds.
  destruct rounds as [|[|rounds]]; [lia|lia|].
  eexists. split.
  - rewrite select_file_round.
    assert (Hp0 : (fx_file_open reopen d (log_name 0)).1 = true).
    { apply probe_succeeds. split; [done|]. intros held Hh. congruence. }
    rewrite Hp0, decide_False by done.
    rewrite select_file_round. change (0 + 1) with 1.
    assert (Hp1 : (fx_file_open reopen
                     {| files := (files d); logger_file := Some (log_name 0) |}
                     (log_name 1)).1 = false).
    { apply not_true_is_false. intros Hs.
      apply probe_succeeds in Hs as [_ Hs]. cbn [logger_file] in Hs.
      specialize (Hs _ eq_refl). congruence. }
    rewrite Hp1. cbn [files]. reflexivity.
  - cbn [files logger_file].
    assert (Hsame : log_name 1 ∈ files d -> {[ log_name 1 ]} ∪ files d = files d).
    { intros H1. apply set_eq. intros x. rewrite elem_of_union, elem_of_singleton.
      split; [intros [->|?]; done|by right]. }
    split; [done|]. split; [done|]. split; [exact Hsame|].
    intros Hfiles.
    assert (H1 : log_name 1 ∈ files d).
    { rewrite Hfiles, !elem_of_union, !elem_of_singleton. by left; right. }
    rewrite (Hsame H1). split; [done|].
    rewrite Hfiles. change (log_name 3) with "fsae-0003.log"%string.
    rewrite !elem_of_union, !elem_of_singleton. intros [[?|?]|?]; discriminate.
Qed.

Lemma rotation_stops_at_refused_open_witness :
  exists d',
    select_file (fun _ _ => false) 4 0
      {| files := {[ "fsae-0000.log"; "fsae-0001.log"; "fsae-0002.log" ]}%string;
         logger_file := None |}
    = Selected 1 d'
    /\ files d' = {[ "fsae-0000.log"; "fsae-0001.log"; "fsae-0002.log" ]}%string
    /\ logger_file d' = Some "fsae-0001.log"%string.
Proof.
  destruct (rotation_stops_at_refused_open (fun _ _ => false)
              {| files := {[ "fsae-0000.log"; "fsae-0001.log"; "fsae-0002.log" ]}%string;
                 logger_file := None |} 4)
    as (d' & Hsel & _ & Hopen & _ & Hex).
  - reflexivity.
  - vm_compute. reflexivity.
  - reflexivity.
  - lia.
  - exists d'. split; [exact Hsel|]. split; [|exact Hopen].
    apply (Hex eq_refl).
Defined.

(** * Further properties of the loop *)

(** ** The buffer is never left *)

Section BufferSafety.

Lemma store_length (b b' : list Z) i x :
  store b i x = Some b' -> length b' = length b.
Proof.
  unfold store. case_decide; [|done]. intros [= <-]. apply length_insert.
Qed.

Lemma memcpy_length (b b' src : list Z) off :
  memcpy b off src = Some b' -> length b' = length b.
Proof.
  unfold memcpy. case_decide as Hle; [|done]. intros [= <-].
  rewrite !length_app, length_take, length_drop. lia.
Qed.

Lemma for_memcpy_length o w base val count i (b b' : list Z) :
  for_memcpy o w base val count i b = Some b' -> length b' = length b.
Proof.
  revert i b. induction count as [|c IH]; intros i b H; cbn in H.
  - by injection H as <-.
  - apply bind_Some in H as (b1 & H1 & H). apply memcpy_length in H1.
    apply IH in H. congruence.
Qed.

Lemma read_bound (b f : list Z) n : read b n = Some f -> (n <= length b)%nat.
Proof. unfold read. by case_decide. Qed.

Lemma stamp_block_keeps cfg t s s' c :
  stamp_block cfg t s = Some (s', c) ->
  length (buf s') = length (buf s)
  /\ last_ldps_timestamp s' = last_ldps_timestamp s
  /\ last_wheel_timestamp s' = last_wheel_timestamp s.
Proof.
  unfold stamp_block. intros H. apply bind_Some in H as (b & Hb & [= <- _]).
  apply memcpy_length in Hb. done.
Qed.

Lemma ldps_block_keeps cfg r t s s' c :
  ldps_block cfg r t s = Some (s', c) ->
  length (buf s') = length (buf s)
  /\ last_wheel_timestamp s' = last_wheel_timestamp s
  /\ (ldps_due cfg t s = true -> (8 + LDPS_N cfg * 2 <= length (buf s))%nat).
Proof.
  unfold ldps_block, ldps_due, tick_gate, threshold.
  destruct (LDPS_ENABLE cfg && _); [|by intros [= <- _]].
  intros H.
  apply bind_Some in H as (b1 & H1 & H). apply store_length in H1.
  apply bind_Some in H as (b2 & H2 & H). apply store_length in H2.
  apply bind_Some in H as (b3 & H3 & H). apply for_memcpy_length in H3.
  apply bind_Some in H as (b4 & H4 & H). apply store_length in H4.
  apply bind_Some in H as (b5 & H5 & H). apply store_length in H5.
  apply bind_Some in H as (f & Hf & [= <- _]). apply read_bound in Hf.
  cbn [buf set_buf set_last_ldps last_wheel_timestamp].
  split; [congruence|]. split; [done|]. intros _. lia.
Qed.

Lemma imu_frame_writes_length cfg id raw (b b' f : list Z) :
  imu_frame_writes cfg id raw b = Some (b', f) -> length b' = length b.
Proof.
  unfold imu_frame_writes. intros H.
  apply bind_Some in H as (b1 & H1 & H). apply store_length in H1.
  apply bind_Some in H as (b2 & H2 & H). apply store_length in H2.
  apply bind_Some in H as (b3 & H3 & H). apply memcpy_length in H3.
  apply bind_Some in H as (b4 & H4 & H). apply memcpy_length in H4.
  apply bind_Some in H as (b5 & H5 & H). apply memcpy_length in H5.
  apply bind_Some in H as (b6 & H6 & H). apply store_length in H6.
  apply bind_Some in H as (b7 & H7 & H). apply store_length in H7.
  apply bind_Some in H as (f' & Hf & [= <- _]). congruence.
Qed.

Lemma acc_block_keeps cfg r s s' c :
  acc_block cfg r s = Some (s', c) ->
  length (buf s') = length (buf s)
  /\ last_wheel_timestamp s' = last_wheel_timestamp s.
Proof.
  unfold acc_block. destruct (IMU_ENABLE cfg && _); [|by intros [= <- _]].
  intros H. apply bind_Some in H as ([b f] & Hw & [= <- _]).
  apply imu_frame_writes_length in Hw. done.
Qed.

Lemma gyro_block_keeps cfg r s s' c :
  gyro_block cfg r s = Some (s', c) ->
  length (buf s') = length (buf s)
  /\ last_wheel_timestamp s' = last_wheel_timestamp s.
Proof.
  unfold gyro_block. destruct (IMU_ENABLE cfg && _); [|by intros [= <- _]].
  intros H. apply bind_Some in H as ([b f] & Hw & [= <- _]).
  apply imu_frame_writes_length in Hw. done.
Qed.

Lemma wheel_block_bound cfg r t s s' c :
  wheel_block cfg r t s = Some (s', c) -> wheel_due cfg t s = true ->
  (WHEEL_N cfg * 4 + 7 <= length (buf s))%nat.
Proof.
  unfold wheel_block, wheel_due, tick_gate, threshold.
  destruct (WHEEL_ENABLE cfg && _); [|done].
  intros H _.
  apply bind_Some in H as (b1 & H1 & H). apply store_length in H1.
  apply bind_Some in H as (b3 & H3 & H). apply for_memcpy_length in H3.
  apply bind_Some in H as (b4 & H4 & H). apply store_length in H4.
  apply bind_Some in H as (b5 & H5 & H). apply store_length in H5.
  apply bind_Some in H as (f & Hf & _). apply read_bound in Hf. lia.
Qed.

Lemma length_buf_loop_outcome cfg rs s :
  fits cfg -> length (buf s) = 128%nat ->
  length (buf (loop_outcome cfg rs s).1) = 128%nat.
Proof.
  intros Hfits. revert s. induction rs as [|r rs IH]; intros s Hlen; [done|].
  rewrite loop_outcome_cons. cbn [fst]. apply IH.
  by apply length_buf_iteration_outcome.
Qed.

End BufferSafety.

(** X1.  When the frames fit the buffer, no run of the loop, from any state
    with the 128-byte buffer and on any readings, stores or copies outside
    of [buf]: the run is defined, makes one list of calls per pass, hands
    [logger_output] at most 128 bytes at a time, and leaves the buffer 128
    bytes long. *)
Theorem loop_never_leaves_buffer (cfg : build) (rs : list reads) (s : statics) :
  fits cfg -> length (buf s) = 128%nat ->
  exists s' css,
    logger_loop cfg rs s = Some (s', css)
    /\ length (buf s') = 128%nat
    /\ length css = length rs
    /\ Forall (fun f => (length f <= 128)%nat) (frames (concat css)).
Proof.
  intros Hfits Hlen.
  exists (loop_outcome cfg rs s).1, (loop_outcome cfg rs s).2.
  split; [by apply logger_loop_runs|].
  split; [by apply length_buf_loop_outcome|].
  split; [apply length_loop_outcome|].
  apply Forall_forall. intros f Hf.
  apply elem_of_loop_frames in Hf as (r & s0 & _ & Hf).
  apply elem_of_iteration_frames in Hf.
  destruct Hf as [[_ ->]|[[_ ->]|[[_ ->]|[_ ->]]]].
  - by apply fits_ldps_frame.
  - unfold acc_frame. rewrite length_imu_frame. lia.
  - unfold gyro_frame. rewrite length_imu_frame. lia.
  - by apply fits_wheel_frame.
Qed.

Lemma loop_never_leaves_buffer_witness :
  fits build_le /\ length (buf statics_init) = 128%nat
  /\ exists s' css,
       logger_loop build_le [readings 2 1 1; readings 4 2 1] statics_init
       = Some (s', css)
       /\ length (buf s') = 128%nat.
Proof.
  assert (Hfits : fits build_le) by (split; simpl; lia).
  split; [exact Hfits|]. split; [reflexivity|].
  destruct (loop_never_leaves_buffer build_le [readings 2 1 1; readings 4 2 1]
              statics_init Hfits eq_refl) as (s' & css & Hrun & Hlen & _).
  exists s', css. split; [exact Hrun|exact Hlen].
Defined.

(** X2.  The bound is sharp.  A pass in which the range array and the wheel
    speed are both due is defined exactly when both frames fit the buffer:
    [8 + 2 * LDPS_N <= 128] and [4 * WHEEL_N + 7 <= 128].  With more
    sensors than that the pass writes behind [buf]. *)
Theorem pass_defined_iff_frames_fit (cfg : build) (r : reads) (s : statics) :
  length (buf s) = 128%nat ->
  ldps_due cfg (tick r) s = true -> wheel_due cfg (tick r) s = true ->
  is_Some (logger_iteration cfg r s)
  <-> (8 + LDPS_N cfg * 2 <= 128)%nat /\ (WHEEL_N cfg * 4 + 7 <= 128)%nat.
Proof.
  intros Hlen Hl Hw. split.
  - intros [[s' c] H]. unfold logger_iteration, and_then in H.
    apply bind_Some in H as ([s0 c0] & H0 & H).
    apply stamp_block_keeps in H0 as (Hb0 & Hl0 & Hw0).
    apply bind_Some in H as ([sx cx] & H & _).
    apply bind_Some in H as ([s1 c1] & H1 & H).
    apply ldps_block_keeps in H1 as (Hb1 & Hw1 & Hfit1).
    apply bind_Some in H as ([sy cy] & H & _).
    apply bind_Some in H as ([s2 c2] & H2 & H).
    apply acc_block_keeps in H2 as (Hb2 & Hw2).
    apply bind_Some in H as ([sz cz] & H & _).
    apply bind_Some in H as ([s3 c3] & H3 & H).
    apply gyro_block_keeps in H3 as (Hb3 & Hw3).
    apply bind_Some in H as ([su cu] & H & _).
    apply bind_Some in H as ([s4 c4] & H4 & _).
    apply wheel_block_bound in H4.
    + split; [|lia]. rewrite <- Hlen, <- Hb0. apply Hfit1.
      unfold ldps_due in *. by rewrite Hl0.
    + unfold wheel_due in *. by rewrite Hw3, Hw2, Hw1, Hw0.
  - intros Hfits. rewrite logger_iteration_outcome by done. done.
Qed.

Lemma pass_defined_iff_frames_fit_witness :
  is_Some (logger_iteration build_le (readings 2 0 0) statics_init)
  <-> (8 + LDPS_N build_le * 2 <= 128)%nat
      /\ (WHEEL_N build_le * 4 + 7 <= 128)%nat.
Proof.
  apply (pass_defined_iff_frames_fit build_le (readings 2 0 0) statics_init);
    reflexivity.
Defined.

(** ** More on the tick gates *)

Section TickClass.

Context (cfg : build) (id : Z) (enable : bool)
  (gate_of : statics -> Z) (frame : reads -> list Z).

Local Abbreviation open r s :=
  (enable && tick_gate (threshold cfg) (tick r) (gate_of s)).

Hypothesis pass_frames : forall r s,
  class_frames id (iteration_outcome cfg r s).2
  = (if open r s then [frame r] else []).

Hypothesis pass_gate : forall r s,
  gate_of (iteration_outcome cfg r s).1
  = (if open r s then tick r else gate_of s).

Hypothesis frame_tick : forall r, frame_timestamp cfg (frame r) = tick r.

Lemma tick_class_latest rs s :
  gate_of (loop_outcome cfg rs s).1
  = default (gate_of s)
      (last (frame_timestamp cfg
               <$> class_frames id (concat (loop_outcome cfg rs s).2))).
Proof.
  revert s. induction rs as [|r rs IH]; intros s; [done|].
  rewrite loop_outcome_cons. cbn [fst snd].
  rewrite class_frames_concat_cons, fmap_app, last_app, IH, pass_frames, pass_gate.
  destruct (last _) as [t|]; [done|].
  destruct (open r s); cbn; [|done]. by rewrite frame_tick.
Qed.

Lemma tick_class_off rs s :
  enable = false ->
  class_frames id (concat (loop_outcome cfg rs s).2) = []
  /\ gate_of (loop_outcome cfg rs s).1 = gate_of s.
Proof.
  intros Hoff. revert s. induction rs as [|r rs IH]; intros s; [done|].
  rewrite loop_outcome_cons. cbn [fst snd].
  rewrite class_frames_concat_cons, pass_frames, Hoff. cbn [andb app].
  destruct (IH (iteration_outcome cfg r s).1) as [-> ->].
  split; [done|]. by rewrite pass_gate, Hoff.
Qed.

Lemma tick_gate_closed_at_start r :
  tick r <= threshold cfg -> tick_gate (threshold cfg) (tick r) 0 = false.
Proof.
  intros Hle. unfold tick_gate. apply bool_decide_eq_false_2.
  rewrite Z.sub_0_r. unfold tick. rewrite u32_idem. fold (tick r). lia.
Qed.

Lemma tick_class_quiet rs s :
  gate_of s = 0 -> Forall (fun r => tick r <= threshold cfg) rs ->
  class_frames id (concat (loop_outcome cfg rs s).2) = []
  /\ gate_of (loop_outcome cfg rs s).1 = 0.
Proof.
  intros Hs Hall. revert s Hs. induction Hall as [|r rs Hr Hall IH]; intros s Hs.
  - done.
  - rewrite loop_outcome_cons. cbn [fst snd].
    rewrite class_frames_concat_cons, pass_frames, Hs.
    rewrite tick_gate_closed_at_start by done. rewrite andb_false_r.
    cbn [app]. apply IH.
    by rewrite pass_gate, Hs, tick_gate_closed_at_start, andb_false_r.
Qed.

Lemma tick_class_first pre r s :
  gate_of s = 0 -> Forall (fun r' => tick r' <= threshold cfg) pre ->
  enable = true -> threshold cfg < tick r ->
  (loop_outcome cfg (pre ++ [r]) s).2
  = (loop_outcome cfg pre s).2
    ++ [(iteration_outcome cfg r (loop_outcome cfg pre s).1).2]
  /\ class_frames id (concat (loop_outcome cfg pre s).2) = []
  /\ class_frames id (iteration_outcome cfg r (loop_outcome cfg pre s).1).2
     = [frame r].
Proof.
  intros Hs Hpre Hen Hgt.
  destruct (tick_class_quiet pre s Hs Hpre) as [Hq Hg].
  split; [|split; [done|]].
  - rewrite loop_outcome_app. cbn [snd]. by rewrite loop_outcome_cons.
  - rewrite pass_frames, Hen, Hg. cbn [andb]. unfold tick_gate.
    rewrite bool_decide_eq_true_2; [done|].
    rewrite Z.sub_0_r. unfold tick. rewrite u32_idem. done.
Qed.

End TickClass.

Section TickInstances.

Context (cfg : build).

Lemma ldps_pass_frames r s :
  class_frames 0x01 (iteration_outcome cfg r s).2
  = (if LDPS_ENABLE cfg
        && tick_gate (threshold cfg) (tick r) (last_ldps_timestamp s)
     then [ldps_frame cfg r (tick r)] else []).
Proof. by destruct (class_frames_iteration cfg r s) as (-> & _). Qed.

Lemma ldps_pass_gate r s :
  last_ldps_timestamp (iteration_outcome cfg r s).1
  = (if LDPS_ENABLE cfg
        && tick_gate (threshold cfg) (tick r) (last_ldps_timestamp s)
     then tick r else last_ldps_timestamp s).
Proof. by destruct (iteration_outcome_proj cfg r s) as (_ & _ & -> & _). Qed.

Lemma wheel_pass_frames r s :
  class_frames 0x04 (iteration_outcome cfg r s).2
  = (if WHEEL_ENABLE cfg
        && tick_gate (threshold cfg) (tick r) (last_wheel_timestamp s)
     then [wheel_frame cfg r (tick r)] else []).
Proof. by destruct (class_frames_iteration cfg r s) as (_ & _ & _ & ->). Qed.

Lemma wheel_pass_gate r s :
  last_wheel_timestamp (iteration_outcome cfg r s).1
  = (if WHEEL_ENABLE cfg
        && tick_gate (threshold cfg) (tick r) (last_wheel_timestamp s)
     then tick r else last_wheel_timestamp s).
Proof.
  by destruct (iteration_outcome_proj cfg r s) as (_ & _ & _ & _ & _ & -> & _).
Qed.

Lemma ldps_frame_tick r : frame_timestamp cfg (ldps_frame cfg r (tick r)) = tick r.
Proof.
  unfold ldps_frame, frame_with_length, tick. apply frame_timestamp_header.
Qed.

Lemma wheel_frame_tick r : frame_timestamp cfg (wheel_frame cfg r (tick r)) = tick r.
Proof. unfold wheel_frame, frame_fixed, tick. apply frame_timestamp_header. Qed.

Lemma u32_sub_wrap T d : 0 <= d < 2 ^ 32 -> u32 (u32 (T + d) - u32 T) = d.
Proof.
  intros Hd. unfold u32. rewrite <- Zminus_mod.
  replace (T + d - T) with d by lia. by apply Z.mod_small.
Qed.

Lemma emits_iteration r s :
  emits 0x01 (iteration_outcome cfg r s).2 = ldps_due cfg (tick r) s
  /\ emits 0x02 (iteration_outcome cfg r s).2 = acc_due cfg r s
  /\ emits 0x03 (iteration_outcome cfg r s).2 = gyro_due cfg r s
  /\ emits 0x04 (iteration_outcome cfg r s).2 = wheel_due cfg (tick r) s.
Proof.
  unfold emits. destruct (class_frames_iteration cfg r s) as (-> & -> & -> & ->).
  by destruct (ldps_due cfg (tick r) s), (acc_due cfg r s), (gyro_due cfg r s),
    (wheel_due cfg (tick r) s).
Qed.

End TickInstances.

(** X3.  The tick gates work across the wrap of the 32-bit tick counter.
    Let the class's last frame (or the last flush) have gone out at time
    [T] and the pass run at time [now], both counted without wrapping, less
    than [2^32] ticks apart.  The statics hold [T mod 2^32], [tx_time_get]
    returns [now mod 2^32], and still the gate opens exactly when
    [now - T] exceeds the threshold, because the code subtracts in
    [uint32_t]. *)
Theorem tick_gates_survive_wraparound (cfg : build) (r : reads) (s : statics)
    (now T1 T4 Tsd : Z) :
  fits cfg -> length (buf s) = 128%nat ->
  LDPS_ENABLE cfg = true -> WHEEL_ENABLE cfg = true -> LOGGER_SD cfg = true ->
  u32 (tx_time_get r) = u32 now ->
  last_ldps_timestamp s = u32 T1 -> 0 <= now - T1 < 2 ^ 32 ->
  last_wheel_timestamp s = u32 T4 -> 0 <= now - T4 < 2 ^ 32 ->
  last_sd_timestamp s = u32 Tsd -> 0 <= now - Tsd < 2 ^ 32 ->
  exists s' cs,
    logger_iteration cfg r s = Some (s', cs)
    /\ (emits 0x01 cs = true
        <-> u32 (TX_TIMER_TICKS_PER_SECOND cfg) / 1000 < now - T1)
    /\ (emits 0x04 cs = true
        <-> u32 (TX_TIMER_TICKS_PER_SECOND cfg) / 1000 < now - T4)
    /\ (flushes cs = true
        <-> u32 (TX_TIMER_TICKS_PER_SECOND cfg) < now - Tsd).
Proof.
  intros Hfits Hlen HL HW HS Hnow H1 Hd1 H4 Hd4 Hsd Hdsd.
  exists (iteration_outcome cfg r s).1, (iteration_outcome cfg r s).2.
  split; [by apply logger_iteration_runs|].
  destruct (emits_iteration cfg r s) as (-> & _ & _ & ->).
  rewrite flushes_iteration.
  unfold ldps_due, wheel_due, flush_due, tick_gate, threshold, flush_interval,
    tick.
  rewrite HL, HW, HS, Hnow, H1, H4, Hsd. cbn [andb].
  rewrite !bool_decide_eq_true.
  assert (Hwrap : forall T, 0 <= now - T < 2 ^ 32 ->
                    u32 (u32 now - u32 T) = now - T).
  { intros T HT. pose proof (u32_sub_wrap T (now - T) HT) as Hw.
    by replace (T + (now - T)) with now in Hw by lia. }
  by rewrite !Hwrap.
Qed.

Lemma tick_gates_survive_wraparound_witness :
  exists s' cs,
    logger_iteration build_le (readings 1 0 0)
      {| buf := replicate 128 0;
         last_ldps_timestamp := 4294967295;
         last_acc_timestamp := 0;
         last_gyro_timestamp := 0;
         last_wheel_timestamp := 4294967290;
         last_sd_timestamp := 4294967000 |} = Some (s', cs)
    /\ (emits 0x01 cs = true <-> 1 < 2)
    /\ (emits 0x04 cs = true <-> 1 < 7)
    /\ (flushes cs = true <-> 1000 < 297).
Proof.
  apply (tick_gates_survive_wraparound build_le (readings 1 0 0) _
           4294967297 4294967295 4294967290 4294967000);
    first [reflexivity | split; simpl; lia | lia].
Defined.

(** X4.  A class that is compiled out never shows in the log, and its
    gate is never touched: with [LDPS_ENABLE], [IMU_ENABLE] or
    [WHEEL_ENABLE] off no frame of the class goes out in any run, and with
    [LOGGER_SD] off no pass ever calls [fx_media_flush]. *)
Theorem disabled_classes_emit_nothing (cfg : build) (rs : list reads) (s : statics) :
  fits cfg -> length (buf s) = 128%nat ->
  exists s' css,
    logger_loop cfg rs s = Some (s', css)
    /\ (LDPS_ENABLE cfg = false ->
        class_frames 0x01 (concat css) = []
        /\ last_ldps_timestamp s' = last_ldps_timestamp s)
    /\ (IMU_ENABLE cfg = false ->
        class_frames 0x02 (concat css) = []
        /\ class_frames 0x03 (concat css) = []
        /\ last_acc_timestamp s' = last_acc_timestamp s
        /\ last_gyro_timestamp s' = last_gyro_timestamp s)
    /\ (WHEEL_ENABLE cfg = false ->
        class_frames 0x04 (concat css) = []
        /\ last_wheel_timestamp s' = last_wheel_timestamp s)
    /\ (LOGGER_SD cfg = false ->
        Forall (fun cs => flushes cs = false) css
        /\ last_sd_timestamp s' = last_sd_timestamp s).
Proof.
  intros Hfits Hlen.
  exists (loop_outcome cfg rs s).1, (loop_outcome cfg rs s).2.
  split; [by apply logger_loop_runs|]. split; [|split; [|split]].
  - intros Hoff.
    apply (tick_class_off cfg 1 (LDPS_ENABLE cfg) last_ldps_timestamp
             (fun r => ldps_frame cfg r (tick r))
             (ldps_pass_frames cfg) (ldps_pass_gate cfg) rs s Hoff).
  - intros Hoff. clear Hlen. revert s.
    induction rs as [|r rs IH]; intros s; [done|].
    rewrite loop_outcome_cons. cbn [fst snd].
    rewrite !class_frames_concat_cons, acc_pass_frames, gyro_pass_frames, Hoff.
    cbn [andb app].
    destruct (IH (iteration_outcome cfg r s).1) as (-> & -> & -> & ->).
    rewrite acc_pass_last, gyro_pass_last, Hoff. done.
  - intros Hoff.
    apply (tick_class_off cfg 4 (WHEEL_ENABLE cfg) last_wheel_timestamp
             (fun r => wheel_frame cfg r (tick r))
             (wheel_pass_frames cfg) (wheel_pass_gate cfg) rs s Hoff).
  - intros Hoff. clear Hlen. revert s.
    induction rs as [|r rs IH]; intros s; [by split|].
    rewrite loop_outcome_cons. cbn [fst snd].
    destruct (IH (iteration_outcome cfg r s).1) as (Hall & ->).
    rewrite last_sd_iteration. unfold flush_due. rewrite Hoff. cbn [andb].
    split; [|done]. constructor; [|done].
    rewrite flushes_iteration. unfold flush_due. by rewrite Hoff.
Qed.

Lemma disabled_classes_emit_nothing_witness :
  exists s' css,
    logger_loop
      {| LDPS_ENABLE := false; IMU_ENABLE := true; WHEEL_ENABLE := true;
         LOGGER_SD := false; LOGGER_USB_SERIAL := true;
         LDPS_N := 2; WHEEL_N := 4; TX_TIMER_TICKS_PER_SECOND := 1000;
         target_order := LittleEndian |}
      [readings 2 1 1; readings 2000 2 1] statics_init = Some (s', css)
    /\ class_frames 0x01 (concat css) = []
    /\ Forall (fun cs => flushes cs = false) css.
Proof.
  destruct (disabled_classes_emit_nothing
              {| LDPS_ENABLE := false; IMU_ENABLE := true; WHEEL_ENABLE := true;
                 LOGGER_SD := false; LOGGER_USB_SERIAL := true;
                 LDPS_N := 2; WHEEL_N := 4; TX_TIMER_TICKS_PER_SECOND := 1000;
                 target_order := LittleEndian |}
              [readings 2 1 1; readings 2000 2 1] statics_init)
    as (s' & css & Hrun & Hl & _ & _ & Hsd);
    [split; simpl; lia|reflexivity|].
  exists s', css. split; [exact Hrun|].
  split; [exact (proj1 (Hl eq_refl))|exact (proj1 (Hsd eq_refl))].
Defined.

(** X5.  The static of a tick-gated class always holds the timestamp of
    the latest frame of that class: after any run, [last_ldps_timestamp]
    (and likewise [last_wheel_timestamp]) equals the timestamp in the
    header of the last class frame the run handed out, and is unchanged
    if the run handed out none. *)
Theorem tick_statics_hold_latest_frame (cfg : build) (rs : list reads) (s : statics) :
  fits cfg -> length (buf s) = 128%nat ->
  exists s' css,
    logger_loop cfg rs s = Some (s', css)
    /\ last_ldps_timestamp s'
       = default (last_ldps_timestamp s)
           (last (frame_timestamp cfg <$> class_frames 0x01 (concat css)))
    /\ last_wheel_timestamp s'
       = default (last_wheel_timestamp s)
           (last (frame_timestamp cfg <$> class_frames 0x04 (concat css))).
Proof.
  intros Hfits Hlen.
  exists (loop_outcome cfg rs s).1, (loop_outcome cfg rs s).2.
  split; [by apply logger_loop_runs|]. split.
  - apply (tick_class_latest cfg 1 (LDPS_ENABLE cfg) last_ldps_timestamp
             (fun r => ldps_frame cfg r (tick r))
             (ldps_pass_frames cfg) (ldps_pass_gate cfg) (ldps_frame_tick cfg)).
  - apply (tick_class_latest cfg 4 (WHEEL_ENABLE cfg) last_wheel_timestamp
             (fun r => wheel_frame cfg r (tick r))
             (wheel_pass_frames cfg) (wheel_pass_gate cfg) (wheel_frame_tick cfg)).
Qed.

Lemma tick_statics_hold_latest_frame_witness :
  exists s' css,
    logger_loop build_le [readings 2 0 0; readings 3 0 0; readings 5 0 0]
      statics_init = Some (s', css)
    /\ last_ldps_timestamp s'
       = default 0
           (last (frame_timestamp build_le <$> class_frames 0x01 (concat css))).
Proof.
  destruct (tick_statics_hold_latest_frame build_le
              [readings 2 0 0; readings 3 0 0; readings 5 0 0] statics_init)
    as (s' & css & Hrun & Hl & _); [split; simpl; lia|reflexivity|].
  exists s', css. split; [exact Hrun|exact Hl].
Defined.

(** X6.  Start-up of the tick-gated classes.  The gates start at tick 0,
    so from start-up no range-array or wheel-speed frame goes out while the
    tick is at most [TX_TIMER_TICKS_PER_SECOND / 1000]; the first pass
    with a later tick hands out the first frame of each enabled class. *)
Theorem tick_gated_silent_until_threshold (cfg : build) (pre : list reads) (r : reads) :
  fits cfg ->
  Forall (fun r' => tick r' <= u32 (TX_TIMER_TICKS_PER_SECOND cfg) / 1000) pre ->
  u32 (TX_TIMER_TICKS_PER_SECOND cfg) / 1000 < tick r ->
  exists s' css_pre c,
    logger_loop cfg (pre ++ [r]) statics_init = Some (s', css_pre ++ [c])
    /\ length css_pre = length pre
    /\ class_frames 0x01 (concat css_pre) = []
    /\ class_frames 0x04 (concat css_pre) = []
    /\ (LDPS_ENABLE cfg = true -> class_frames 0x01 c = [ldps_frame cfg r (tick r)])
    /\ (WHEEL_ENABLE cfg = true -> class_frames 0x04 c = [wheel_frame cfg r (tick r)]).
Proof.
  intros Hfits Hpre Hgt.
  pose proof (tick_class_quiet cfg 1 (LDPS_ENABLE cfg) last_ldps_timestamp
                (fun r => ldps_frame cfg r (tick r))
                (ldps_pass_frames cfg) (ldps_pass_gate cfg)
                pre statics_init eq_refl Hpre) as [Hq1 _].
  pose proof (tick_class_quiet cfg 4 (WHEEL_ENABLE cfg) last_wheel_timestamp
                (fun r => wheel_frame cfg r (tick r))
                (wheel_pass_frames cfg) (wheel_pass_gate cfg)
                pre statics_init eq_refl Hpre) as [Hq4 _].
  eexists _, _, _. split; [|split; [|split; [|split; [|split]]]].
  - rewrite logger_loop_runs by done.
    rewrite loop_outcome_app. cbn [snd]. rewrite loop_outcome_cons.
    cbn [snd loop_outcome]. reflexivity.
  - apply length_loop_outcome.
  - exact Hq1.
  - exact Hq4.
  - intros Hen.
    by destruct (tick_class_first cfg 1 (LDPS_ENABLE cfg) last_ldps_timestamp
                   (fun r => ldps_frame cfg r (tick r))
                   (ldps_pass_frames cfg) (ldps_pass_gate cfg)
                   pre r statics_init eq_refl Hpre Hen Hgt) as (_ & _ & ?).
  - intros Hen.
    by destruct (tick_class_first cfg 4 (WHEEL_ENABLE cfg) last_wheel_timestamp
                   (fun r => wheel_frame cfg r (tick r))
                   (wheel_pass_frames cfg) (wheel_pass_gate cfg)
                   pre r statics_init eq_refl Hpre Hen Hgt) as (_ & _ & ?).
Qed.

Lemma tick_gated_silent_until_threshold_witness :
  exists s' css_pre c,
    logger_loop build_le ([readings 0 0 0; readings 1 0 0] ++ [readings 2 0 0])
      statics_init = Some (s', css_pre ++ [c])
    /\ class_frames 0x01 (concat css_pre) = []
    /\ class_frames 0x01 c = [ldps_frame build_le (readings 2 0 0) 2].
Proof.
  destruct (tick_gated_silent_until_threshold build_le
              [readings 0 0 0; readings 1 0 0] (readings 2 0 0))
    as (s' & css_pre & c & Hrun & _ & Hq & _ & Hf & _).
  - split; simpl; lia.
  - repeat constructor; vm_compute; discriminate.
  - reflexivity.
  - exists s', css_pre, c. split; [exact Hrun|]. split; [exact Hq|].
    exact (Hf eq_refl).
Defined.

(** ** The byte stream of the log *)

Section StreamFacts.

Context (cfg : build).

Lemma iteration_frame_length r s f :
  f ∈ iteration_frames cfg r s ->
  (sensor_id f = Some 0x01 /\ length f = (8 + LDPS_N cfg * 2)%nat)
  \/ (sensor_id f = Some 0x02 /\ length f = 14%nat)
  \/ (sensor_id f = Some 0x03 /\ length f = 14%nat)
  \/ (sensor_id f = Some 0x04 /\ length f = (WHEEL_N cfg * 4 + 7)%nat).
Proof.
  intros Hf. apply elem_of_iteration_frames in Hf.
  destruct Hf as [[_ ->]|[[_ ->]|[[_ ->]|[_ ->]]]].
  - left. split; [apply sensor_id_frame_with_length|].
    unfold ldps_frame.
    rewrite length_frame_with_length, length_header, length_ldps_payload. lia.
  - right; left. split; [apply sensor_id_frame_with_length|].
    apply length_imu_frame.
  - right; right; left. split; [apply sensor_id_frame_with_length|].
    apply length_imu_frame.
  - right; right; right. split; [apply sensor_id_frame_fixed|].
    unfold wheel_frame.
    rewrite length_frame_fixed, length_header, length_wheel_payload. lia.
Qed.

(** Two frames that start the same byte stream are the same frame: the
    sensor id at offset 4 fixes the length. *)
Lemma frames_split_uniquely r1 s1 r2 s2 (f g x y : list Z) :
  f ∈ iteration_frames cfg r1 s1 -> g ∈ iteration_frames cfg r2 s2 ->
  f ++ x = g ++ y -> f = g /\ x = y.
Proof.
  intros Hf Hg Heq.
  apply iteration_frame_length in Hf. apply iteration_frame_length in Hg.
  assert (Hlen : forall h, (5 <= length h)%nat ->
            sensor_id (h ++ x) = sensor_id h /\ sensor_id (h ++ y) = sensor_id h).
  { intros h Hh. unfold sensor_id. by rewrite !lookup_app_l by lia. }
  assert (Hf5 : (5 <= length f)%nat)
    by (destruct Hf as [[_ ->]|[[_ ->]|[[_ ->]|[_ ->]]]]; lia).
  assert (Hg5 : (5 <= length g)%nat)
    by (destruct Hg as [[_ ->]|[[_ ->]|[[_ ->]|[_ ->]]]]; lia).
  assert (Hid : sensor_id f = sensor_id g).
  { destruct (Hlen f Hf5) as [<- _]. destruct (Hlen g Hg5) as [_ <-].
    by rewrite Heq. }
  apply app_inj_1; [|done].
  destruct Hf as [[Hi ->]|[[Hi ->]|[[Hi ->]|[Hi ->]]]];
    destruct Hg as [[Hj ->]|[[Hj ->]|[[Hj ->]|[Hj ->]]]];
    rewrite Hi, Hj in Hid; congruence.
Qed.

Lemma stream_parses_uniquely (F G : list (list Z)) :
  Forall (fun f => exists r s, f ∈ iteration_frames cfg r s) F ->
  Forall (fun g => exists r s, g ∈ iteration_frames cfg r s) G ->
  concat F = concat G -> F = G.
Proof.
  intros HF. revert G. induction HF as [|f F (r1 & s1 & Hf) HF IH];
    intros G HG Heq.
  - destruct HG as [|g G (r2 & s2 & Hg) HG]; [done|].
    apply iteration_frame_length in Hg. cbn in Heq.
    apply (f_equal length) in Heq. rewrite length_app in Heq. cbn in Heq.
    destruct Hg as [[_ Hl]|[[_ Hl]|[[_ Hl]|[_ Hl]]]]; rewrite Hl in Heq; lia.
  - destruct HG as [|g G (r2 & s2 & Hg) HG].
    + apply iteration_frame_length in Hf. cbn in Heq.
      apply (f_equal length) in Heq. rewrite length_app in Heq. cbn in Heq.
      destruct Hf as [[_ Hl]|[[_ Hl]|[[_ Hl]|[_ Hl]]]]; rewrite Hl in Heq; lia.
    + cbn in Heq.
      destruct (frames_split_uniquely r1 s1 r2 s2 f g _ _ Hf Hg Heq) as [-> Hrest].
      f_equal. by apply IH.
Qed.

Lemma loop_frames_written rs s :
  Forall (fun f => exists r s0, f ∈ iteration_frames cfg r s0)
    (frames (concat (loop_outcome cfg rs s).2)).
Proof.
  apply Forall_forall. intros f Hf.
  apply elem_of_loop_frames in Hf as (r & s0 & _ & Hf). eauto.
Qed.

End StreamFacts.

(** X7.  The log can be cut back into its frames in one way only.  If two
    runs of the same build, from any states and on any readings, write the
    same byte stream, then they wrote the same frames in the same order:
    the sensor id at offset 4 of a frame fixes its length, also for the
    wheel-speed frame, which carries no length byte. *)
Theorem log_stream_determines_frames (cfg : build) (rs1 rs2 : list reads)
    (s1 s2 : statics) :
  fits cfg -> length (buf s1) = 128%nat -> length (buf s2) = 128%nat ->
  exists s1' css1 s2' css2,
    logger_loop cfg rs1 s1 = Some (s1', css1)
    /\ logger_loop cfg rs2 s2 = Some (s2', css2)
    /\ (concat (frames (concat css1)) = concat (frames (concat css2)) ->
        frames (concat css1) = frames (concat css2)).
Proof.
  intros Hfits Hl1 Hl2.
  exists (loop_outcome cfg rs1 s1).1, (loop_outcome cfg rs1 s1).2,
    (loop_outcome cfg rs2 s2).1, (loop_outcome cfg rs2 s2).2.
  split; [by apply logger_loop_runs|]. split; [by apply logger_loop_runs|].
  apply (stream_parses_uniquely cfg); apply loop_frames_written.
Qed.

Lemma log_stream_determines_frames_witness :
  exists s1' css1 s2' css2,
    logger_loop build_le [readings 2 1 1] statics_init = Some (s1', css1)
    /\ logger_loop build_le [readings 2 0 0; readings 3 1 1] statics_init
       = Some (s2', css2)
    /\ (concat (frames (concat css1)) = concat (frames (concat css2)) ->
        frames (concat css1) = frames (concat css2)).
Proof.
  apply (log_stream_determines_frames build_le);
    [split; simpl; lia|reflexivity|reflexivity].
Defined.

(** ** Bytes and readings *)

Section ByteFacts.

Lemma le_bytes_range n v : Forall (fun b => 0 <= b < 256) (le_bytes n v).
Proof.
  revert v. induction n as [|n IH]; intros v; cbn; constructor; [|apply IH].
  apply Z.mod_pos_bound. lia.
Qed.

Lemma object_bytes_range o n v : Forall (fun b => 0 <= b < 256) (object_bytes o n v).
Proof.
  destruct o; cbn; [apply le_bytes_range|].
  apply List.Forall_rev, le_bytes_range.
Qed.

Lemma array_bytes_range o w val count i :
  Forall (fun b => 0 <= b < 256) (array_bytes o w val count i).
Proof.
  revert i. induction count as [|c IH]; intros i; cbn; [constructor|].
  apply Forall_app. split; [apply object_bytes_range|apply IH].
Qed.

Lemma iteration_frame_bytes cfg r s f :
  fits cfg -> f ∈ iteration_frames cfg r s -> Forall (fun b => 0 <= b < 256) f.
Proof.
  intros [HL _] Hf. apply elem_of_iteration_frames in Hf.
  assert (Heol : Forall (fun b => 0 <= b < 256) EOL)
    by (repeat constructor; lia).
  assert (Hax : forall raw, Forall (fun b => 0 <= b < 256) (axes_payload cfg raw)).
  { intros raw. unfold axes_payload.
    rewrite !Forall_app. repeat split; apply object_bytes_range. }
  destruct Hf as [[_ ->]|[[_ ->]|[[_ ->]|[_ ->]]]];
    unfold ldps_frame, acc_frame, gyro_frame, wheel_frame, frame_with_length,
      frame_fixed, header;
    rewrite ?length_axes_payload, ?length_ldps_payload, !Forall_app,
      ?Forall_cons, ?Forall_nil.
  - repeat split; try apply object_bytes_range; try apply array_bytes_range;
      try done; lia.
  - repeat split; try apply object_bytes_range; try apply Hax; try done; lia.
  - repeat split; try apply object_bytes_range; try apply Hax; try done; lia.
  - repeat split; try apply object_bytes_range; try apply array_bytes_range;
      try done; lia.
Qed.

(** The bytes of element [i] of an array. *)
Lemma field_array_bytes o w val count j i (tl : list Z) :
  (i < count)%nat ->
  take w (drop (i * w) (array_bytes o w val count j ++ tl))
  = object_bytes o w (val (j + i)%nat).
Proof.
  revert count j. induction i as [|i IH]; intros [|c] j Hi; try lia.
  - change (0 * w)%nat with 0%nat. rewrite drop_0, Nat.add_0_r.
    cbn [array_bytes]. rewrite <- app_assoc.
    rewrite take_app_length'; [done|by rewrite length_object_bytes].
  - cbn [array_bytes]. rewrite <- app_assoc.
    replace (S i * w)%nat with (w + i * w)%nat by lia.
    rewrite drop_app_add'; [|by rewrite length_object_bytes].
    rewrite IH by lia. do 2 f_equal. lia.
Qed.

Lemma signed16_mod v : - 2 ^ 15 <= v < 2 ^ 15 -> signed16 (v mod 2 ^ 16) = v.
Proof.
  intros Hv. unfold signed16. destruct (Z.ltb_spec (v mod 2 ^ 16) (2 ^ 15)) as [Hlt|Hge].
  - destruct (Z.lt_ge_cases v 0) as [Hneg|Hpos].
    + rewrite <- (Z.mod_add v 1 (2 ^ 16)) in Hlt by lia.
      rewrite Z.mod_small in Hlt; lia.
    + apply Z.mod_small. lia.
  - destruct (Z.lt_ge_cases v 0) as [Hneg|Hpos].
    + rewrite <- (Z.mod_add v 1 (2 ^ 16)) by lia.
      rewrite Z.mod_small; lia.
    + rewrite Z.mod_small in Hge; lia.
Qed.

End ByteFacts.

Section ReadBack.

Context (cfg : build).

Lemma field_ldps_frame r t i :
  (i < LDPS_N cfg)%nat ->
  field (6 + i * 2) 2 (ldps_frame cfg r t)
  = object_bytes (target_order cfg) 2 (ldps_read r i).
Proof.
  intros Hi. unfold field, ldps_frame, frame_with_length, ldps_payload.
  rewrite (app_assoc (header cfg t)).
  rewrite drop_app_add' by (by rewrite length_app, length_header).
  by rewrite field_array_bytes.
Qed.

Lemma field_wheel_frame r t i :
  (i < WHEEL_N cfg)%nat ->
  field (5 + i * 4) 4 (wheel_frame cfg r t)
  = object_bytes (target_order cfg) 4 (wheel_rpm r i).
Proof.
  intros Hi. unfold field, wheel_frame, frame_fixed, wheel_payload.
  rewrite (app_assoc (header cfg t)).
  rewrite drop_app_add' by (by rewrite length_app, length_header).
  by rewrite field_array_bytes.
Qed.

Lemma field_axes_frame id raw t :
  let f := frame_with_length (header cfg t) id (axes_payload cfg raw) in
  field 6 2 f = object_bytes (target_order cfg) 2 (axis_x raw)
  /\ field 8 2 f = object_bytes (target_order cfg) 2 (axis_y raw)
  /\ field 10 2 f = object_bytes (target_order cfg) 2 (axis_z raw).
Proof.
  unfold field, frame_with_length, axes_payload, header.
  by destruct (target_order cfg).
Qed.

Lemma signed16_object_value o v :
  - 2 ^ 15 <= v < 2 ^ 15 -> signed16 (object_value o (object_bytes o 2 v)) = v.
Proof.
  intros Hv. rewrite object_value_bytes.
  change (256 ^ Z.of_nat 2) with (2 ^ 16). by apply signed16_mod.
Qed.

Lemma unsigned32_object_value o v :
  0 <= v < 2 ^ 32 -> object_value o (object_bytes o 4 v) = v.
Proof.
  intros Hv. rewrite object_value_bytes.
  change (256 ^ Z.of_nat 4) with (2 ^ 32). by apply Z.mod_small.
Qed.

End ReadBack.

(** X8.  Whatever the drivers return, every frame is a string of bytes:
    each element handed to [logger_output] lies in [0, 256), the length
    byte included. *)
Theorem frames_are_byte_strings (cfg : build) (rs : list reads) (s : statics) :
  fits cfg -> length (buf s) = 128%nat ->
  exists s' css,
    logger_loop cfg rs s = Some (s', css)
    /\ Forall (fun f => Forall (fun b => 0 <= b < 256) f) (frames (concat css)).
Proof.
  intros Hfits Hlen.
  exists (loop_outcome cfg rs s).1, (loop_outcome cfg rs s).2.
  split; [by apply logger_loop_runs|].
  apply Forall_forall. intros f Hf.
  apply elem_of_loop_frames in Hf as (r & s0 & _ & Hf).
  by apply (iteration_frame_bytes cfg r s0).
Qed.

Lemma frames_are_byte_strings_witness :
  exists s' css,
    logger_loop build_le [readings 2 1 1; readings (-7) 2 1] statics_init
    = Some (s', css)
    /\ Forall (fun f => Forall (fun b => 0 <= b < 256) f) (frames (concat css)).
Proof.
  apply (frames_are_byte_strings build_le); [split; simpl; lia|reflexivity].
Defined.

(** X9.  The readings can be read back from the frames at the offsets the
    format gives.  In a frame of a pass, range reading [i] sits in the two
    bytes at offset [6 + 2 * i], the axes of the accelerometer and of the
    gyroscope at offsets 6, 8 and 10, and the speed of wheel [i] in the
    four bytes at offset [5 + 4 * i]; decoded in the byte order of the
    target they give back every reading that fits its type ([int16_t],
    resp. a 32-bit pattern). *)
Theorem readings_can_be_read_back (cfg : build) (r : reads) (s : statics) :
  fits cfg -> length (buf s) = 128%nat ->
  exists s' cs,
    logger_iteration cfg r s = Some (s', cs)
    /\ (forall f i,
          f ∈ class_frames 0x01 cs -> (i < LDPS_N cfg)%nat ->
          - 2 ^ 15 <= ldps_read r i < 2 ^ 15 ->
          signed16 (object_value (target_order cfg) (field (6 + i * 2) 2 f))
          = ldps_read r i)
    /\ (forall f,
          f ∈ class_frames 0x02 cs ->
          (- 2 ^ 15 <= axis_x (imu_acc_raw r) < 2 ^ 15 ->
           signed16 (object_value (target_order cfg) (field 6 2 f))
           = axis_x (imu_acc_raw r))
          /\ (- 2 ^ 15 <= axis_y (imu_acc_raw r) < 2 ^ 15 ->
              signed16 (object_value (target_order cfg) (field 8 2 f))
              = axis_y (imu_acc_raw r))
          /\ (- 2 ^ 15 <= axis_z (imu_acc_raw r) < 2 ^ 15 ->
              signed16 (object_value (target_order cfg) (field 10 2 f))
              = axis_z (imu_acc_raw r)))
    /\ (forall f,
          f ∈ class_frames 0x03 cs ->
          (- 2 ^ 15 <= axis_x (imu_gyro_raw r) < 2 ^ 15 ->
           signed16 (object_value (target_order cfg) (field 6 2 f))
           = axis_x (imu_gyro_raw r))
          /\ (- 2 ^ 15 <= axis_y (imu_gyro_raw r) < 2 ^ 15 ->
              signed16 (object_value (target_order cfg) (field 8 2 f))
              = axis_y (imu_gyro_raw r))
          /\ (- 2 ^ 15 <= axis_z (imu_gyro_raw r) < 2 ^ 15 ->
              signed16 (object_value (target_order cfg) (field 10 2 f))
              = axis_z (imu_gyro_raw r)))
    /\ (forall f i,
          f ∈ class_frames 0x04 cs -> (i < WHEEL_N cfg)%nat ->
          0 <= wheel_rpm r i < 2 ^ 32 ->
          object_value (target_order cfg) (field (5 + i * 4) 4 f)
          = wheel_rpm r i).
Proof.
  intros Hfits Hlen.
  exists (iteration_outcome cfg r s).1, (iteration_outcome cfg r s).2.
  split; [by apply logger_iteration_runs|].
  destruct (class_frames_iteration cfg r s) as (-> & -> & -> & ->).
  split; [|split; [|split]].
  - intros f i Hf Hi Hv.
    destruct (ldps_due cfg (tick r) s); [|by apply elem_of_nil in Hf].
    apply list_elem_of_singleton in Hf as ->.
    rewrite field_ldps_frame by done. by apply signed16_object_value.
  - intros f Hf.
    destruct (acc_due cfg r s); [|by apply elem_of_nil in Hf].
    apply list_elem_of_singleton in Hf as ->. unfold acc_frame.
    destruct (field_axes_frame cfg 2 (imu_acc_raw r) (tick r)) as (-> & -> & ->).
    repeat split; apply signed16_object_value.
  - intros f Hf.
    destruct (gyro_due cfg r s); [|by apply elem_of_nil in Hf].
    apply list_elem_of_singleton in Hf as ->. unfold gyro_frame.
    destruct (field_axes_frame cfg 3 (imu_gyro_raw r) (tick r)) as (-> & -> & ->).
    repeat split; apply signed16_object_value.
  - intros f i Hf Hi Hv.
    destruct (wheel_due cfg (tick r) s); [|by apply elem_of_nil in Hf].
    apply list_elem_of_singleton in Hf as ->.
    rewrite field_wheel_frame by done. by apply unsigned32_object_value.
Qed.

Lemma readings_can_be_read_back_witness :
  exists s' cs,
    logger_iteration build_le (readings 2 7 0) statics_init = Some (s', cs)
    /\ (forall f,
          f ∈ class_frames 0x02 cs ->
          signed16 (object_value LittleEndian (field 6 2 f)) = -1).
Proof.
  destruct (readings_can_be_read_back build_le (readings 2 7 0) statics_init)
    as (s' & cs & Hrun & _ & Hacc & _); [split; simpl; lia|reflexivity|].
  exists s', cs. split; [exact Hrun|].
  intros f Hf. destruct (Hacc f Hf) as (Hx & _). apply Hx. simpl. lia.
Defined.

(** ** What reaches the sinks *)

Section SinkFacts.

Context (cfg : build).

Lemma sink_trace_app c1 c2 :
  sink_trace cfg (c1 ++ c2) = sink_trace cfg c1 ++ sink_trace cfg c2.
Proof. unfold sink_trace. apply flat_map_app. Qed.

Lemma file_writes_sink cs :
  file_writes (sink_trace cfg cs) = if LOGGER_SD cfg then frames cs else [].
Proof.
  induction cs as [|[f|] cs IH].
  - by destruct (LOGGER_SD cfg).
  - cbn [sink_trace flat_map frames]. unfold logger_output at 1.
    fold (sink_trace cfg cs).
    destruct (LOGGER_SD cfg), (LOGGER_USB_SERIAL cfg); cbn; by rewrite IH.
  - cbn [sink_trace flat_map frames]. fold (sink_trace cfg cs). by cbn.
Qed.

Lemma usb_writes_sink cs :
  usb_writes (sink_trace cfg cs) = if LOGGER_USB_SERIAL cfg then frames cs else [].
Proof.
  induction cs as [|[f|] cs IH].
  - by destruct (LOGGER_USB_SERIAL cfg).
  - cbn [sink_trace flat_map frames]. unfold logger_output at 1.
    fold (sink_trace cfg cs).
    destruct (LOGGER_SD cfg), (LOGGER_USB_SERIAL cfg); cbn; by rewrite IH.
  - cbn [sink_trace flat_map frames]. fold (sink_trace cfg cs). by cbn.
Qed.

Lemma rtt_ids_sink cs :
  rtt_ids (sink_trace cfg cs) = (fun f => nth 4 f 0) <$> frames cs.
Proof.
  induction cs as [|[f|] cs IH]; [done| |].
  - cbn [sink_trace flat_map frames]. unfold logger_output at 1.
    fold (sink_trace cfg cs).
    destruct (LOGGER_SD cfg), (LOGGER_USB_SERIAL cfg); cbn; by rewrite IH.
  - cbn [sink_trace flat_map frames]. fold (sink_trace cfg cs). by cbn.
Qed.

Lemma media_flushes_app a1 a2 :
  media_flushes (a1 ++ a2) = (media_flushes a1 + media_flushes a2)%nat.
Proof. induction a1 as [|[| | |] a1 IH]; cbn; lia. Qed.

Lemma media_flushes_outputs (F : list (list Z)) :
  media_flushes (sink_trace cfg (Output <$> F)) = 0%nat
  /\ flushes (Output <$> F) = false.
Proof.
  induction F as [|f F [IHa IHb]]; [done|]. split; [|done].
  unfold sink_trace in *. cbn [fmap list_fmap flat_map] in *.
  rewrite media_flushes_app, IHa. unfold logger_output.
  by destruct (LOGGER_SD cfg), (LOGGER_USB_SERIAL cfg).
Qed.

Lemma nth_sensor_id (f : list Z) id : sensor_id f = Some id -> nth 4 f 0 = id.
Proof. unfold sensor_id. intros H. by apply nth_lookup_Some. Qed.

(** The calls of a pass: its frames, then the flush if one is due. *)
Lemma iteration_calls r s :
  (iteration_outcome cfg r s).2
  = (Output <$> iteration_frames cfg r s)
    ++ (if flush_due cfg (tick r) s then [Flush] else []).
Proof.
  unfold iteration_outcome, iteration_frames, gated, tick,
    ldps_due, acc_due, gyro_due, wheel_due, flush_due.
  cbn [set_buf buf last_ldps_timestamp].
  destruct (LDPS_ENABLE cfg && _);
    cbn [set_buf set_last_ldps buf last_acc_timestamp];
  (destruct (IMU_ENABLE cfg && _);
    cbn [set_buf set_last_ldps set_last_acc buf last_gyro_timestamp];
   (destruct (IMU_ENABLE cfg && _);
     cbn [set_buf set_last_ldps set_last_acc set_last_gyro buf
          last_wheel_timestamp];
    (destruct (WHEEL_ENABLE cfg && _);
      cbn [set_buf set_last_ldps set_last_acc set_last_gyro set_last_wheel buf
           last_sd_timestamp];
     (destruct (LOGGER_SD cfg && _); reflexivity)))).
Qed.

End SinkFacts.

(** X10.  [logger_output] treats every sink alike.  Over any run, each
    sink that is compiled in ([LOGGER_SD], [LOGGER_USB_SERIAL]) receives
    exactly the frames of the run, whole and in order, and a sink that is
    compiled out receives nothing; the RTT trace gets one record per frame,
    holding that frame's sensor id, whatever the sinks; and
    [fx_media_flush] is called once for every flush the loop decides. *)
Theorem sinks_receive_the_frames (cfg : build) (rs : list reads) (s : statics) :
  fits cfg -> length (buf s) = 128%nat ->
  exists s' css,
    logger_loop cfg rs s = Some (s', css)
    /\ file_writes (sink_trace cfg (concat css))
       = (if LOGGER_SD cfg then frames (concat css) else [])
    /\ usb_writes (sink_trace cfg (concat css))
       = (if LOGGER_USB_SERIAL cfg then frames (concat css) else [])
    /\ Some <$> rtt_ids (sink_trace cfg (concat css))
       = sensor_id <$> frames (concat css)
    /\ media_flushes (sink_trace cfg (concat css))
       = length (filter (fun cs => flushes cs = true) css).
Proof.
  intros Hfits Hlen.
  exists (loop_outcome cfg rs s).1, (loop_outcome cfg rs s).2.
  split; [by apply logger_loop_runs|].
  split; [apply file_writes_sink|]. split; [apply usb_writes_sink|]. split.
  - rewrite rtt_ids_sink, <- list_fmap_compose.
    apply Forall_fmap_ext, Forall_forall. intros f Hf.
    apply elem_of_loop_frames in Hf as (r & s0 & _ & Hf).
    apply iteration_frame_length in Hf. cbn.
    destruct Hf as [[Hid _]|[[Hid _]|[[Hid _]|[Hid _]]]];
      by rewrite Hid, (nth_sensor_id _ _ Hid).
  - clear Hlen. revert s.
    induction rs as [|r rs IH]; intros s; [done|].
    rewrite loop_outcome_cons. cbn [snd concat].
    rewrite sink_trace_app, media_flushes_app, IH.
    assert (Hone : media_flushes (sink_trace cfg (iteration_outcome cfg r s).2)
                   = if flushes (iteration_outcome cfg r s).2 then 1%nat else 0%nat).
    { rewrite iteration_calls, sink_trace_app, media_flushes_app, flushes_app.
      destruct (media_flushes_outputs cfg (iteration_frames cfg r s)) as [-> ->].
      by destruct (flush_due cfg (tick r) s). }
    rewrite Hone. destruct (flushes (iteration_outcome cfg r s).2) eqn:E.
    + by rewrite filter_cons_True by done.
    + rewrite filter_cons_False; [done|]. by rewrite E.
Qed.

Lemma sinks_receive_the_frames_witness :
  exists s' css,
    logger_loop build_le [readings 2 1 1; readings 4000 2 1] statics_init
    = Some (s', css)
    /\ file_writes (sink_trace build_le (concat css)) = frames (concat css)
    /\ usb_writes (sink_trace build_le (concat css)) = [].
Proof.
  destruct (sinks_receive_the_frames build_le
              [readings 2 1 1; readings 4000 2 1] statics_init)
    as (s' & css & Hrun & Hfile & Husb & _); [split; simpl; lia|reflexivity|].
  exists s', css. split; [exact Hrun|]. split; [exact Hfile|exact Husb].
Defined.

(** X11.  The flush comes last in its pass.  The calls of a pass are the
    [logger_output] calls for its frames, followed by at most one
    [fx_media_flush]: a pass that flushes does so after every frame it has
    written, and never flushes twice. *)
Theorem flush_follows_frames_of_its_pass (cfg : build) (r : reads) (s : statics) :
  fits cfg -> length (buf s) = 128%nat ->
  exists s' cs,
    logger_iteration cfg r s = Some (s', cs)
    /\ cs = (Output <$> frames cs) ++ (if flushes cs then [Flush] else [])
    /\ (length cs <= 5)%nat.
Proof.
  intros Hfits Hlen.
  exists (iteration_outcome cfg r s).1, (iteration_outcome cfg r s).2.
  split; [by apply logger_iteration_runs|].
  rewrite frames_iteration_outcome, flushes_iteration.
  split; [apply iteration_calls|].
  rewrite iteration_calls, length_app, length_fmap.
  unfold iteration_frames. rewrite !length_app.
  destruct (ldps_due cfg (tick r) s), (acc_due cfg r s), (gyro_due cfg r s),
    (wheel_due cfg (tick r) s), (flush_due cfg (tick r) s); cbn; lia.
Qed.

Lemma flush_follows_frames_of_its_pass_witness :
  exists s' cs,
    logger_iteration build_le (readings 2000 7 0) statics_init = Some (s', cs)
    /\ cs = (Output <$> frames cs) ++ (if flushes cs then [Flush] else [])
    /\ (length cs <= 5)%nat.
Proof.
  apply (flush_follows_frames_of_its_pass build_le);
    [split; simpl; lia|reflexivity].
Defined.

(** ** More on the flush and on the edge gates *)

Section FlushSpacing.

Lemma flush_pattern_gap interval ticks last j tj :
  StronglySorted Z.le ticks ->
  0 <= last -> Forall (fun t => last <= t < 2 ^ 32) ticks ->
  ticks !! j = Some tj -> flush_pattern interval ticks last !! j = Some true ->
  interval < tj - last.
Proof.
  intros Hs. revert last j. induction Hs as [|t ts Hs IH Hle];
    intros last j Hl Hall Hj Hp; [done|].
  apply Forall_cons in Hall as [Ht Hall]. cbn [flush_pattern] in Hp.
  destruct j as [|j]; cbn in Hj, Hp.
  - injection Hj as ->. injection Hp as Hp.
    by apply tick_gate_small in Hp; [|lia..].
  - set (last' := if tick_gate interval t last then t else last) in *.
    assert (Hl' : last <= last' <= t)
      by (unfold last'; destruct (tick_gate _ _ _); lia).
    enough (interval < tj - last') by lia.
    apply (IH last' j); [lia| |done..].
    rewrite List.Forall_forall in *. intros x Hx.
    specialize (Hle x Hx). specialize (Hall x Hx). lia.
Qed.

Lemma flush_pattern_spaced interval ticks last i j ti tj :
  StronglySorted Z.le ticks ->
  0 <= last -> Forall (fun t => last <= t < 2 ^ 32) ticks ->
  (i < j)%nat -> ticks !! i = Some ti -> ticks !! j = Some tj ->
  flush_pattern interval ticks last !! i = Some true ->
  flush_pattern interval ticks last !! j = Some true ->
  interval < tj - ti.
Proof.
  intros Hs. revert last i j. induction Hs as [|t ts Hs IH Hle];
    intros last i j Hl Hall Hij Hi Hj Hpi Hpj; [done|].
  apply Forall_cons in Hall as [Ht Hall]. cbn [flush_pattern] in Hpi, Hpj.
  destruct j as [|j]; [lia|]. cbn in Hj, Hpj.
  set (last' := if tick_gate interval t last then t else last) in *.
  assert (Hl' : last <= last' <= t)
    by (unfold last'; destruct (tick_gate _ _ _); lia).
  assert (Hall' : Forall (fun x => last' <= x < 2 ^ 32) ts).
  { rewrite List.Forall_forall in *. intros x Hx.
    specialize (Hle x Hx). specialize (Hall x Hx). lia. }
  destruct i as [|i]; cbn in Hi, Hpi.
  - injection Hi as ->. injection Hpi as Hpi.
    unfold last' in *. rewrite Hpi in *.
    apply (flush_pattern_gap interval ts ti j tj); [done|lia|done..].
  - apply (IH last' i j); [lia|done|lia|done..].
Qed.

Lemma flushes_pattern_any cfg rs s :
  flushes <$> (loop_outcome cfg rs s).2
  = if LOGGER_SD cfg
    then flush_pattern (flush_interval cfg) (tick <$> rs) (last_sd_timestamp s)
    else replicate (length rs) false.
Proof.
  destruct (LOGGER_SD cfg) eqn:Hsd; [by apply flushes_pattern|].
  revert s. induction rs as [|r rs IH]; intros s; [done|].
  rewrite loop_outcome_cons. cbn [snd fmap list_fmap length replicate].
  change (list_fmap _ _ flushes ?l) with (flushes <$> l).
  rewrite IH, flushes_iteration. unfold flush_due. by rewrite Hsd.
Qed.

End FlushSpacing.

(** X12.  The flush gate is a minimum spacing.  In a run from start-up
    whose ticks never decrease, two passes that both call [fx_media_flush]
    have ticks more than [TX_TIMER_TICKS_PER_SECOND] apart: the medium is
    never flushed twice within one interval, however fast the loop runs. *)
Theorem flushes_are_spaced (cfg : build) (rs : list reads) :
  fits cfg -> Sorted Z.le (tick <$> rs) ->
  exists s' css,
    logger_loop cfg rs statics_init = Some (s', css)
    /\ forall i j ci cj ti tj,
         (i < j)%nat ->
         css !! i = Some ci -> css !! j = Some cj ->
         flushes ci = true -> flushes cj = true ->
         (tick <$> rs) !! i = Some ti -> (tick <$> rs) !! j = Some tj ->
         u32 (TX_TIMER_TICKS_PER_SECOND cfg) < tj - ti.
Proof.
  intros Hfits Hsorted.
  exists (loop_outcome cfg rs statics_init).1, (loop_outcome cfg rs statics_init).2.
  split; [by apply logger_loop_runs|].
  intros i j ci cj ti tj Hij Hci Hcj Hfi Hfj Hti Htj.
  pose proof (flushes_pattern_any cfg rs statics_init) as Hpat.
  assert (Hpi : (flushes <$> (loop_outcome cfg rs statics_init).2) !! i = Some true)
    by (by rewrite list_lookup_fmap, Hci; cbn; rewrite Hfi).
  assert (Hpj : (flushes <$> (loop_outcome cfg rs statics_init).2) !! j = Some true)
    by (by rewrite list_lookup_fmap, Hcj; cbn; rewrite Hfj).
  rewrite Hpat in Hpi, Hpj. destruct (LOGGER_SD cfg).
  - apply Sorted_StronglySorted in Hsorted; [|intros x y z; lia].
    apply (flush_pattern_spaced (flush_interval cfg) (tick <$> rs) 0 i j ti tj);
      try done; try lia; apply ticks_bounded.
  - apply lookup_replicate in Hpi as [? _]. done.
Qed.

Lemma flushes_are_spaced_witness :
  exists s' css,
    logger_loop build_le
      [readings 0 0 0; readings 1001 0 0; readings 1500 0 0; readings 2002 0 0]
      statics_init = Some (s', css)
    /\ forall i j ci cj ti tj,
         (i < j)%nat ->
         css !! i = Some ci -> css !! j = Some cj ->
         flushes ci = true -> flushes cj = true ->
         (tick <$> [readings 0 0 0; readings 1001 0 0; readings 1500 0 0;
                    readings 2002 0 0]) !! i = Some ti ->
         (tick <$> [readings 0 0 0; readings 1001 0 0; readings 1500 0 0;
                    readings 2002 0 0]) !! j = Some tj ->
         1000 < tj - ti.
Proof.
  apply (flushes_are_spaced build_le);
    [split; simpl; lia|repeat constructor; vm_compute; discriminate].
Defined.

Section EdgePattern.

Context (cfg : build) (id : Z) (test after : reads -> Z)
  (stored : statics -> Z) (frame : reads -> list Z).

Hypothesis pass_frames : forall r s,
  class_frames id (iteration_outcome cfg r s).2
  = (if IMU_ENABLE cfg && edge_gate (test r) (stored s) then [frame r] else []).

Hypothesis pass_stored : forall r s,
  stored (iteration_outcome cfg r s).1
  = (if IMU_ENABLE cfg && edge_gate (test r) (stored s)
     then u32 (after r) else stored s).

Lemma edge_emits_on_changes rs s :
  IMU_ENABLE cfg = true ->
  Forall (fun r => u32 (after r) = u32 (test r)) rs ->
  emits id <$> (loop_outcome cfg rs s).2
  = changes (stored s) ((fun r => u32 (test r)) <$> rs)
  /\ stored (loop_outcome cfg rs s).1
     = default (stored s) (last ((fun r => u32 (test r)) <$> rs)).
Proof.
  intros Hen Hall. revert s. induction Hall as [|r rs Hr Hall IH]; intros s.
  - done.
  - rewrite loop_outcome_cons. cbn [fst snd fmap list_fmap changes].
    change (list_fmap _ _ (emits id) ?l) with (emits id <$> l).
    change (list_fmap _ _ (fun r => u32 (test r)) ?l)
      with ((fun r => u32 (test r)) <$> l).
    destruct (IH (iteration_outcome cfg r s).1) as [-> ->].
    assert (Hst : stored (iteration_outcome cfg r s).1 = u32 (test r)).
    { rewrite pass_stored, Hen. unfold edge_gate. cbn [andb].
      case_bool_decide; cbn [negb]; congruence. }
    rewrite Hst. split.
    + f_equal. unfold emits. rewrite pass_frames, Hen. cbn [andb].
      unfold edge_gate. by destruct (negb _).
    + rewrite last_cons. by destruct (last _).
Qed.

End EdgePattern.

(** X13.  With the IMU enabled and driver timestamps that do not change
    within a pass, the accelerometer (and likewise the gyroscope) emits
    exactly in the passes that find a timestamp different from the one of
    the pass before (for the first pass: from the stored one): one frame
    per change, none otherwise, and afterwards the static holds the
    timestamp of the last pass. *)
Theorem edge_classes_emit_on_changes (cfg : build) (rs : list reads) (s : statics) :
  fits cfg -> length (buf s) = 128%nat -> IMU_ENABLE cfg = true ->
  Forall (fun r => u32 (imu_acc_timestamp_after r) = u32 (imu_acc_timestamp r)
                   /\ u32 (imu_gyro_timestamp_after r) = u32 (imu_gyro_timestamp r))
    rs ->
  exists s' css,
    logger_loop cfg rs s = Some (s', css)
    /\ emits 0x02 <$> css
       = changes (last_acc_timestamp s) ((fun r => u32 (imu_acc_timestamp r)) <$> rs)
    /\ emits 0x03 <$> css
       = changes (last_gyro_timestamp s) ((fun r => u32 (imu_gyro_timestamp r)) <$> rs)
    /\ last_acc_timestamp s'
       = default (last_acc_timestamp s)
           (last ((fun r => u32 (imu_acc_timestamp r)) <$> rs))
    /\ last_gyro_timestamp s'
       = default (last_gyro_timestamp s)
           (last ((fun r => u32 (imu_gyro_timestamp r)) <$> rs)).
Proof.
  intros Hfits Hlen Hen Hall.
  exists (loop_outcome cfg rs s).1, (loop_outcome cfg rs s).2.
  split; [by apply logger_loop_runs|].
  destruct (edge_emits_on_changes cfg 2 imu_acc_timestamp imu_acc_timestamp_after
              last_acc_timestamp (fun r => acc_frame cfg r (tick r))
              (acc_pass_frames cfg) (acc_pass_last cfg) rs s Hen) as [Ha1 Ha2].
  { eapply Forall_impl; [exact Hall|]. by intros r [? _]. }
  destruct (edge_emits_on_changes cfg 3 imu_gyro_timestamp imu_gyro_timestamp_after
              last_gyro_timestamp (fun r => gyro_frame cfg r (tick r))
              (gyro_pass_frames cfg) (gyro_pass_last cfg) rs s Hen) as [Hg1 Hg2].
  { eapply Forall_impl; [exact Hall|]. by intros r [_ ?]. }
  done.
Qed.

Lemma edge_classes_emit_on_changes_witness :
  exists s' css,
    logger_loop build_le [readings 2 7 0; readings 3 7 0; readings 4 9 0]
      statics_init = Some (s', css)
    /\ emits 0x02 <$> css = [true; false; true].
Proof.
  destruct (edge_classes_emit_on_changes build_le
              [readings 2 7 0; readings 3 7 0; readings 4 9 0] statics_init)
    as (s' & css & Hrun & Hacc & _).
  - split; simpl; lia.
  - reflexivity.
  - reflexivity.
  - repeat constructor.
  - exists s', css. split; [exact Hrun|]. rewrite Hacc. reflexivity.
Defined.

(** ** More on the choice of the log file *)


(** X15.  When the search finds the smallest unused id.  Let [free] be the
    smallest id whose log is not in the directory, below [2^31], and let
    the search start with [logger_file] closed and run for more than
    [free] rounds.  Then it selects [free] if and only if FileX accepts
    every open the loop asks of the control block while it is still open on
    the log before: the opens of ids 1 to [free - 1].  If it does, the log
    of [free] is created and [logger_file] is open on it. *)
Theorem search_finds_smallest_unused_iff (reopen : string -> string -> bool)
    (d : disk) (rounds : nat) (free : Z) :
  logger_file d = None ->
  0 <= free < 2 ^ 31 -> (log_name free ∉ files d) ->
  (forall m, 0 <= m < free -> log_name m ∈ files d) ->
  (Z.to_nat free < rounds)%nat ->
  (exists fid d',
     select_file reopen rounds 0 d = Selected fid d'
     /\ 0 <= fid <= free
     /\ files d' = {[ log_name fid ]} ∪ files d
     /\ logger_file d' = Some (log_name fid))
  /\ ((exists d', select_file reopen rounds 0 d = Selected free d')
      <-> (forall k, 0 < k < free ->
             reopen (log_name (k - 1)) (log_name k) = true)).
Proof.
  intros Hclosed Hfree Hout Hbelow Hrounds.
  pose proof (select_file_outcome reopen rounds 0 d ltac:(lia)) as H.
  destruct (select_file reopen rounds 0 d) as [fid d'| |].
  - destruct H as (Hle & Hin & Hmid & _ & Hsel & Hfiles & Hopen).
    assert (Hfid : fid <= free).
    { destruct (decide (fid <= free)) as [|Hgt]; [done|].
      destruct Hout. apply Hin. lia. }
    split; [by exists fid, d'|]. split.
    + intros (d'' & [= -> _]) k Hk. apply Hmid. lia.
    + intros Hacc. exists d'. f_equal.
      destruct (decide (fid = free)) as [|Hne]; [done|]. exfalso.
      destruct (Hsel (Hbelow fid ltac:(lia)))
        as [(_ & held & Hh & _)|[Hlt Href]]; [congruence|].
      rewrite Hacc in Href by lia. discriminate.
  - exfalso. apply Hout, H. unfold INT_MAX. lia.
  - exfalso. apply Hout, H. lia.
Qed.

Lemma search_finds_smallest_unused_iff_witness :
  exists d',
    select_file (fun _ _ => true) 4 0
      {| files := {[ "fsae-0000.log"; "fsae-0001.log"; "fsae-0002.log" ]}%string;
         logger_file := None |}
    = Selected 3 d'.
Proof.
  destruct (search_finds_smallest_unused_iff (fun _ _ => true)
              {| files := {[ "fsae-0000.log"; "fsae-0001.log"; "fsae-0002.log" ]}%string;
                 logger_file := None |} 4 3) as [_ [_ Hiff]].
  - reflexivity.
  - lia.
  - vm_compute. intros H. discriminate H.
  - intros m Hm.
    assert (Hcases : m = 0 \/ m = 1 \/ m = 2) by lia.
    destruct Hcases as [-> | [-> | ->]]; vm_compute; reflexivity.
  - vm_compute. lia.
  - apply Hiff. reflexivity.
Defined.
